(** * SpiFlash: a driver for the 25LQ080 serial flash chip

    A shallow embedding of [spiflash.cpp] / [spiflash.h] and the properties
    of its command framing, page splitting, write-completion polling and
    asynchronous completion record.

    The driver talks to the outside world only through the platform calls
    ([digitalWrite], [delay], [delayMicroseconds], [SPI.transfer], the
    [spi.set...] calls, [Serial.printlnf] and the user's completion
    callback).  Every such call is recorded as an [event] in a trace kept in
    the [world]; the bytes the chip clocks back are supplied by an oracle
    indexed by the number of the transfer and the position in it. *)

From Stdlib Require Import ZArith List Bool Lia.
From Equations Require Import Equations.
Import ListNotations.
Local Open Scope Z_scope.

(** ** Machine integers *)

(** [size_t] on the Particle targets ([#include "Particle.h"]: 32-bit ARM). *)
Definition size_bits : Z := 32.
Definition size_max : Z := 2 ^ size_bits.

(** Unsigned [size_t] arithmetic wraps around. *)
Definition wrap (x : Z) : Z := x mod size_max.

(** The cast [(uint8_t) x]. *)
Definition u8 (x : Z) : Z := x mod 256.

(** Constants of [class SpiFlash]. *)
Definition STATUS_WIP : Z := 0x01.
Definition STATUS_WEL : Z := 0x02.
Definition STATUS_SRWD : Z := 0x80.

Definition PAGE_SIZE : Z := 256.
Definition SECTOR_SIZE : Z := 4096.
Definition NUM_SECTORS : Z := 256.
Definition BLOCK_SIZE : Z := 65536.
Definition NUM_BLOCKS : Z := 16.

(** ** Platform vocabulary *)

Inductive SPIClass := SPI | SPI1.
Inductive level := LOW | HIGH.
Inductive bit_order := LSBFIRST | MSBFIRST.
Inductive clock_scale := HZ | KHZ | MHZ.
Inductive data_mode := SPI_MODE0 | SPI_MODE1 | SPI_MODE2 | SPI_MODE3.

(** A byte of a transmit buffer: [None] is a cell of a local array that the
    code never initialised. *)
Definition txbyte := option Z.

(** Where a transfer stores what it receives: a local [rxBuf], or the
    caller's buffer (a cursor into it). *)
Inductive rxbuf := RxLocal | RxUser (cursor : Z).

(** A pointer to the driver object ([this]), or [NULL]. *)
Inductive ptr := NULL | THIS.

(** One platform call.  [EvTransfer] is a call of [SPI.transfer]:
    [completion] tells whether a completion routine was passed, in which case
    the transfer is asynchronous.  [EvCallback] is the call of the user's
    completion callback; what that function then does is a [script],
    below. *)
Inductive event :=
| EvSpiBegin (bus : SPIClass) (pin : Z)
| EvSetBitOrder (bus : SPIClass) (o : bit_order)
| EvSetClockSpeed (bus : SPIClass) (value : Z) (scale : clock_scale)
| EvSetDataMode (bus : SPIClass) (m : data_mode)
| EvDigitalWrite (pin : Z) (l : level)
| EvDelay (ms : Z)
| EvDelayMicroseconds (us : Z)
| EvTransfer (bus : SPIClass) (tx : option (list txbyte)) (rx : option rxbuf)
             (len : Z) (completion : bool)
| EvPrint (manufacturerId deviceId1 deviceId2 : Z)
| EvCallback (fn : Z) (param : Z).

(** ** The world: the driver object, the file's statics, and the platform *)

Record world := mkWorld {
  (* members of the SpiFlash object *)
  spi : SPIClass;
  cs : Z;
  sharedBus : bool;
  (* statics of spiflash.cpp; a function or data pointer is an address, 0 is NULL *)
  _spiFlash : ptr;
  _callback : Z;
  _callbackParam : Z;
  (* the platform: what was done so far, and what the chip will answer *)
  trace : list event;
  xfers : nat;
  chip : nat -> nat -> Z
}.

Definition emit (e : event) (w : world) : world :=
  mkWorld (spi w) (cs w) (sharedBus w) (_spiFlash w) (_callback w)
          (_callbackParam w) (trace w ++ [e]) (xfers w) (chip w).

Definition count_transfer (w : world) : world :=
  mkWorld (spi w) (cs w) (sharedBus w) (_spiFlash w) (_callback w)
          (_callbackParam w) (trace w) (S (xfers w)) (chip w).

Definition set_pending (p : ptr) (fn param : Z) (w : world) : world :=
  mkWorld (spi w) (cs w) (sharedBus w) p fn param (trace w) (xfers w) (chip w).

Definition set_spiFlash (p : ptr) (w : world) : world :=
  mkWorld (spi w) (cs w) (sharedBus w) p (_callback w) (_callbackParam w)
          (trace w) (xfers w) (chip w).

Definition set_callback (fn : Z) (w : world) : world :=
  mkWorld (spi w) (cs w) (sharedBus w) (_spiFlash w) fn (_callbackParam w)
          (trace w) (xfers w) (chip w).

Definition set_callbackParam (param : Z) (w : world) : world :=
  mkWorld (spi w) (cs w) (sharedBus w) (_spiFlash w) (_callback w) param
          (trace w) (xfers w) (chip w).

(** The platform calls. *)
Definition digitalWrite (pin : Z) (l : level) : world -> world :=
  emit (EvDigitalWrite pin l).
Definition delay (ms : Z) : world -> world := emit (EvDelay ms).
Definition delayMicroseconds (us : Z) : world -> world :=
  emit (EvDelayMicroseconds us).

(** The bytes the chip clocks back during the transfer that is about to
    start. *)
Definition rxbyte (w : world) (i : nat) : Z := u8 (chip w (xfers w) i).

(** [SPI.transfer(tx, rx, len, completion)] on the global [SPI] object.
    The result is the content of the receive buffer. *)
Definition SPI_transfer (tx : option (list txbyte)) (rx : option rxbuf)
    (len : Z) (completion : bool) (w : world) : list Z * world :=
  let data := match rx with
              | Some _ => map (rxbyte w) (seq 0 (Z.to_nat len))
              | None => []
              end in
  (data, count_transfer (emit (EvTransfer SPI tx rx len completion) w)).

(** Arrays. *)
Fixpoint store {A : Type} (i : nat) (v : A) (l : list A) : list A :=
  match l, i with
  | [], _ => []
  | _ :: t, O => v :: t
  | h :: t, S j => h :: store j v t
  end.

Definition uninit (n : nat) : list txbyte := repeat None n.

(** ** The driver *)

(** The constructor: [sharedBus] takes its default member initialiser, the
    statics start as [NULL]. *)
Definition SpiFlash_new (bus : SPIClass) (pin : Z) (c : nat -> nat -> Z) : world :=
  mkWorld bus pin false NULL 0 0 [] O c.

Definition setSpiSettings (w : world) : world :=
  let w := emit (EvSetBitOrder (spi w) MSBFIRST) w in
  let w := emit (EvSetClockSpeed (spi w) 30 MHZ) w in
  emit (EvSetDataMode (spi w) SPI_MODE0) w.

Definition begin (w : world) : world :=
  let w := emit (EvSpiBegin (spi w) (cs w)) w in
  if negb (sharedBus w) then setSpiSettings w else w.

Definition beginTransaction (w : world) : world :=
  let w := if sharedBus w then delay 1 (setSpiSettings w) else w in
  digitalWrite (cs w) LOW w.

Definition endTransaction (w : world) : world :=
  digitalWrite (cs w) HIGH w.

Definition jedecIdRead (w : world) : (Z * Z * Z) * world :=
  let txBuf := store 0 (Some 0x9f) (uninit 4) in
  let w := beginTransaction w in
  let '(rxBuf, w) := SPI_transfer (Some txBuf) (Some RxLocal) 4 false w in
  let w := endTransaction w in
  ((nth 1 rxBuf 0, nth 2 rxBuf 0, nth 3 rxBuf 0), w).

Definition isValidChip (w : world) : bool * world :=
  let '((manufacturerId, deviceId1, deviceId2), w) := jedecIdRead w in
  let w := emit (EvPrint manufacturerId deviceId1 deviceId2) w in
  ((manufacturerId =? 0x9d) && (deviceId1 =? 0x13) && (deviceId2 =? 0x44), w).

Definition readStatus (w : world) : Z * world :=
  let txBuf := store 0 (Some 0x05) (uninit 2) in
  let w := beginTransaction w in
  let '(rxBuf, w) := SPI_transfer (Some txBuf) (Some RxLocal) 2 false w in
  let w := endTransaction w in
  (nth 1 rxBuf 0, w).

Definition isWriteInProgress (w : world) : bool * world :=
  let '(status, w) := readStatus w in
  (negb (Z.land status STATUS_WIP =? 0), w).

Definition setInstWithAddr (inst : Z) (addr : Z) (buf : list txbyte) : list txbyte :=
  let buf := store 0 (Some (u8 inst)) buf in
  let buf := store 1 (Some (u8 (Z.shiftr addr 16))) buf in
  let buf := store 2 (Some (u8 (Z.shiftr addr 8))) buf in
  store 3 (Some (u8 addr)) buf.

Definition readPageCommon (addr : Z) (buf : Z) (bufLen : Z) (completion : bool)
    (w : world) : world :=
  let txBuf := setInstWithAddr 0x03 addr (uninit 4) in
  let w := beginTransaction w in
  let w := snd (SPI_transfer (Some txBuf) None 4 false w) in
  snd (SPI_transfer None (Some (RxUser buf)) bufLen completion w).

Definition readPageSync (addr : Z) (buf : Z) (bufLen : Z) (w : world) : world :=
  let w := readPageCommon addr buf bufLen false w in
  endTransaction w.

Definition readPageAsync (addr : Z) (buf : Z) (bufLen : Z) (callback param : Z)
    (w : world) : world :=
  let w := set_spiFlash THIS w in
  let w := set_callback callback w in
  let w := set_callbackParam param w in
  readPageCommon addr buf bufLen true w.

(** The number of bytes the multi-page loops hand to one page operation. *)
Definition pageCount (addr bufLen : Z) : Z :=
  let pageOffset := addr mod PAGE_SIZE in
  let pageStart := wrap (addr - pageOffset) in
  let count := wrap (wrap (pageStart + PAGE_SIZE) - addr) in
  if count >? bufLen then bufLen else count.

(** The termination measure of the multi-page loops: each round hands at
    least one byte, and no more than what is left, to the page operation. *)
Ltac page_loop_decreases :=
  match goal with
  | count := ?c : Z |- (Z.to_nat (wrap (?n - _)) < Z.to_nat ?n)%nat =>
      let Hc := fresh "Hc" in
      assert (Hc : 1 <= c <= n);
      [ unfold pageCount, wrap, PAGE_SIZE;
        rewrite Zplus_mod_idemp_l, Zminus_mod_idemp_l;
        match goal with
        | |- context [?a - ?a mod 256 + 256 - ?a] =>
            replace (a - a mod 256 + 256 - a) with (256 - a mod 256) by ring;
            pose proof (Z.mod_pos_bound a 256 eq_refl)
        end;
        change size_max with 4294967296;
        rewrite Z.mod_small by lia;
        match goal with
        | |- context [?x >? ?y] => destruct (Z.gtb_spec x y); lia
        end
      | subst count; unfold wrap;
        let Hle := fresh "Hle" in
        assert (Hle : (n - c) mod size_max <= n - c)
          by (apply Z.mod_le; [lia | reflexivity]);
        pose proof (Z.mod_pos_bound (n - c) size_max eq_refl);
        apply Z2Nat.inj_lt; lia ]
  end.

Equations? readDataSync (addr : Z) (curBuf : Z) (bufLen : Z) (w : world) : world
  by wf (Z.to_nat bufLen) lt :=
  readDataSync addr curBuf bufLen w with Z_gt_dec bufLen 0 := {
    | left _ =>
        let count := pageCount addr bufLen in
        let w := readPageSync addr curBuf count w in
        readDataSync (wrap (addr + count)) (curBuf + count) (wrap (bufLen - count)) w
    | right _ => w }.
Proof. page_loop_decreases. Qed.

Definition writeEnable (w : world) : world :=
  let w := beginTransaction w in
  let txBuf := store 0 (Some 0x06) (uninit 1) in
  let w := snd (SPI_transfer (Some txBuf) None 1 false w) in
  let w := endTransaction w in
  delayMicroseconds 3 w.

(** [buf] is the content of the caller's memory from the pointer on. *)
Definition writePageCommon (addr : Z) (buf : list Z) (bufLen : Z)
    (completion : bool) (w : world) : world :=
  let txBuf := setInstWithAddr 0x02 addr (uninit 4) in
  let w := writeEnable w in
  let w := beginTransaction w in
  let w := snd (SPI_transfer (Some txBuf) None 4 false w) in
  snd (SPI_transfer (Some (map Some (firstn (Z.to_nat bufLen) buf))) None
                    bufLen completion w).

(** ** Operations that wait for the chip *)

(** [waitForWriteComplete] loops for as long as the chip reports a write in
    progress.  An operation either returns, or is still polling when the
    observation ends: [Polling w] is the world at that moment. *)
Inductive outcome (A : Type) :=
| Ret (a : A) (w : world)
| Polling (w : world).
Arguments Ret {A} a w.
Arguments Polling {A} w.

Definition M (A : Type) := world -> outcome A.

Definition ret {A} (a : A) : M A := fun w => Ret a w.
Definition bind {A B} (m : M A) (k : A -> M B) : M B :=
  fun w => match m w with
           | Ret a w' => k a w'
           | Polling w' => Polling w'
           end.
(** An operation that cannot block. *)
Definition run (f : world -> world) : M unit := fun w => Ret tt (f w).
Definition call {A} (f : world -> A * world) : M A :=
  fun w => let '(a, w') := f w in Ret a w'.

Notation "x <- m ;; k" := (bind m (fun x => k))
  (at level 61, m at next level, right associativity).
Notation "m ;; k" := (bind m (fun _ => k))
  (at level 61, right associativity).

Definition world_of {A} (o : outcome A) : world :=
  match o with Ret _ w => w | Polling w => w end.

(** [polls] bounds the number of status reads of one wait. *)
Fixpoint waitForWriteComplete (polls : nat) : M unit :=
  match polls with
  | O => fun w => Polling w
  | S polls' =>
      busy <- call isWriteInProgress ;;
      if busy then run (delay 1) ;; waitForWriteComplete polls'
      else ret tt
  end.

Definition writeStatus (polls : nat) (status : Z) : M unit :=
  waitForWriteComplete polls ;;
  let txBuf := store 1 (Some (u8 status)) (store 0 (Some 0x01) (uninit 2)) in
  run beginTransaction ;;
  run (fun w => snd (SPI_transfer (Some txBuf) None 2 false w)) ;;
  run endTransaction.

Definition writePageSync (polls : nat) (addr : Z) (buf : list Z) (bufLen : Z)
  : M unit :=
  waitForWriteComplete polls ;;
  run (writePageCommon addr buf bufLen false) ;;
  run endTransaction ;;
  waitForWriteComplete polls.

Definition writePageAsync (polls : nat) (addr : Z) (buf : list Z) (bufLen : Z)
    (callback param : Z) : M unit :=
  waitForWriteComplete polls ;;
  run (set_spiFlash THIS) ;;
  run (set_callback callback) ;;
  run (set_callbackParam param) ;;
  run (writePageCommon addr buf bufLen true).

Equations? writeDataSync (polls : nat) (addr : Z) (curBuf : list Z) (bufLen : Z)
  (w : world) : outcome unit by wf (Z.to_nat bufLen) lt :=
  writeDataSync polls addr curBuf bufLen w with Z_gt_dec bufLen 0 := {
    | left _ =>
        let count := pageCount addr bufLen in
        match writePageSync polls addr curBuf count w with
        | Ret _ w =>
            writeDataSync polls (wrap (addr + count))
                          (skipn (Z.to_nat count) curBuf) (wrap (bufLen - count)) w
        | Polling w => Polling w
        end
    | right _ => Ret tt w }.
Proof. page_loop_decreases. Qed.

Definition sectorErase (polls : nat) (addr : Z) : M unit :=
  waitForWriteComplete polls ;;
  let txBuf := setInstWithAddr 0xD7 addr (uninit 4) in
  run writeEnable ;;
  run beginTransaction ;;
  run (fun w => snd (SPI_transfer (Some txBuf) None 4 false w)) ;;
  run endTransaction ;;
  waitForWriteComplete polls.

Definition blockErase (polls : nat) (addr : Z) : M unit :=
  waitForWriteComplete polls ;;
  let txBuf := setInstWithAddr 0xD8 addr (uninit 4) in
  run writeEnable ;;
  run beginTransaction ;;
  run (fun w => snd (SPI_transfer (Some txBuf) None 4 false w)) ;;
  run endTransaction ;;
  waitForWriteComplete polls.

Definition chipErase (polls : nat) : M unit :=
  waitForWriteComplete polls ;;
  let txBuf := store 0 (Some 0xC7) (uninit 1) in
  run writeEnable ;;
  run beginTransaction ;;
  run (fun w => snd (SPI_transfer (Some txBuf) None 1 false w)) ;;
  run endTransaction ;;
  waitForWriteComplete polls.

(** ** The public interface, and the states a program can reach *)

Inductive api :=
| Begin
| IsValidChip
| JedecIdRead
| ReadStatus
| IsWriteInProgress
| WaitForWriteComplete
| WriteStatus (status : Z)
| ReadDataSync (addr buf bufLen : Z)
| ReadPageSync (addr buf bufLen : Z)
| ReadPageAsync (addr buf bufLen callback param : Z)
| WriteDataSync (addr : Z) (buf : list Z) (bufLen : Z)
| WritePageSync (addr : Z) (buf : list Z) (bufLen : Z)
| WritePageAsync (addr : Z) (buf : list Z) (bufLen callback param : Z)
| SectorErase (addr : Z)
| BlockErase (addr : Z)
| ChipErase.

Definition exec (polls : nat) (c : api) : M unit :=
  match c with
  | Begin => run begin
  | IsValidChip => call isValidChip ;; ret tt
  | JedecIdRead => call jedecIdRead ;; ret tt
  | ReadStatus => call readStatus ;; ret tt
  | IsWriteInProgress => call isWriteInProgress ;; ret tt
  | WaitForWriteComplete => waitForWriteComplete polls
  | WriteStatus status => writeStatus polls status
  | ReadDataSync addr buf bufLen => run (readDataSync addr buf bufLen)
  | ReadPageSync addr buf bufLen => run (readPageSync addr buf bufLen)
  | ReadPageAsync addr buf bufLen callback param =>
      run (readPageAsync addr buf bufLen callback param)
  | WriteDataSync addr buf bufLen => writeDataSync polls addr buf bufLen
  | WritePageSync addr buf bufLen => writePageSync polls addr buf bufLen
  | WritePageAsync addr buf bufLen callback param =>
      writePageAsync polls addr buf bufLen callback param
  | SectorErase addr => sectorErase polls addr
  | BlockErase addr => blockErase polls addr
  | ChipErase => chipErase polls
  end.

(** What the user's completion callback does to the driver: calls of the
    interface, one after the other, where what it calls next may depend on
    the world the call before left. *)
Inductive script :=
| Stop
| Do (c : api) (next : world -> script).

Fixpoint run_script (polls : nat) (s : script) : M unit :=
  match s with
  | Stop => ret tt
  | Do c next =>
      fun w =>
        match exec polls c w with
        | Ret _ w' => run_script polls (next w') w'
        | Polling w' => Polling w'
        end
  end.

(** The completion routine the platform calls when an asynchronous transfer
    is done.  [_spiFlash->endTransaction()] goes through the static pointer:
    there is no result when it is [NULL].  [user fn param w] is what the
    function at address [fn] does when it is called with [param] in the
    world [w]; the routine clears callback and context after that function
    has returned, and does not return while a call made there polls. *)
Definition _completion (user : Z -> Z -> world -> script) (polls : nat)
    (w : world) : option (outcome unit) :=
  match _spiFlash w with
  | NULL => None
  | THIS =>
      let w := endTransaction w in
      let w := set_spiFlash NULL w in
      if negb (_callback w =? 0) then
        let w := emit (EvCallback (_callback w) (_callbackParam w)) w in
        Some ((run_script polls (user (_callback w) (_callbackParam w) w) ;;
               run (set_callback 0) ;;
               run (set_callbackParam 0)) w)
      else Some (Ret tt w)
  end.

(** The world in which the user's callback starts to run. *)
Definition callback_entry (w : world) : world :=
  emit (EvCallback (_callback w) (_callbackParam w))
       (set_spiFlash NULL (endTransaction w)).

(** A program constructs the object, then calls the interface; the platform
    may report a finished transfer in between, and the callback it calls is
    part of the program: it runs in [callback_entry w] and may call the
    interface there.  A call that is still polling has reached the world it
    polls in. *)
Inductive reachable : world -> Prop :=
| reach_new bus pin c : reachable (SpiFlash_new bus pin c)
| reach_call w polls c :
    reachable w -> reachable (world_of (exec polls c w))
| reach_callback w :
    reachable w -> _spiFlash w = THIS -> _callback w <> 0 ->
    reachable (callback_entry w)
| reach_completion user polls w o :
    reachable w -> _completion user polls w = Some o ->
    reachable (world_of o).

(** ** Vocabulary of the statements *)

(** The world after the events [evs], [n] of them transfers; the object and
    the statics are as before. *)
Definition after (evs : list event) (n : nat) (w : world) : world :=
  mkWorld (spi w) (cs w) (sharedBus w) (_spiFlash w) (_callback w)
          (_callbackParam w) (trace w ++ evs) (xfers w + n)%nat (chip w).

(** The chip answers transfer number [n] with a status byte whose
    write-in-progress bit is set. *)
Definition wip (c : nat -> nat -> Z) (n : nat) : bool :=
  negb (Z.land (u8 (c n 1%nat)) STATUS_WIP =? 0).

(** From transfer number [n] on, the chip reports a write in progress [k]
    times, and none at the read after these. *)
Definition settles (c : nat -> nat -> Z) (n k : nat) : Prop :=
  (forall j, (j < k)%nat -> wip c (n + j) = true) /\ wip c (n + k) = false.

Definition status_read (pin : Z) : list event :=
  [EvDigitalWrite pin LOW;
   EvTransfer SPI (Some [Some 0x05; None]) (Some RxLocal) 2 false;
   EvDigitalWrite pin HIGH].

Fixpoint busy_polls (pin : Z) (k : nat) : list event :=
  match k with
  | O => []
  | S k' => status_read pin ++ EvDelay 1 :: busy_polls pin k'
  end.

(** A wait that sees the chip busy [k] times. *)
Definition wait_events (pin : Z) (k : nat) : list event :=
  busy_polls pin k ++ status_read pin.

Definition write_enable (pin : Z) : list event :=
  [EvDigitalWrite pin LOW;
   EvTransfer SPI (Some [Some 0x06]) None 1 false;
   EvDigitalWrite pin HIGH;
   EvDelayMicroseconds 3].

Definition header (inst addr : Z) : list txbyte :=
  [Some inst; Some (Z.shiftr addr 16 mod 256); Some (Z.shiftr addr 8 mod 256);
   Some (addr mod 256)].

(** The bus traffic of [readPageCommon] and of [writePageCommon] after the
    write-enable: chip-select is left active. *)
Definition read_command (pin addr buf bufLen : Z) (completion : bool) : list event :=
  [EvDigitalWrite pin LOW;
   EvTransfer SPI (Some (header 0x03 addr)) None 4 false;
   EvTransfer SPI None (Some (RxUser buf)) bufLen completion].

Definition program_command (pin addr : Z) (buf : list Z) (bufLen : Z)
    (completion : bool) : list event :=
  [EvDigitalWrite pin LOW;
   EvTransfer SPI (Some (header 0x02 addr)) None 4 false;
   EvTransfer SPI (Some (map Some (firstn (Z.to_nat bufLen) buf))) None bufLen
              completion].

Definition erase_command (pin : Z) (tx : list txbyte) : list event :=
  [EvDigitalWrite pin LOW;
   EvTransfer SPI (Some tx) None (Z.of_nat (length tx)) false;
   EvDigitalWrite pin HIGH].

(** The page operations of a multi-page transfer: the loop of [readDataSync]
    and [writeDataSync] with the page operation left out.  An entry is the
    address, the offset of the cursor in the caller's buffer, and the
    count. *)
Equations? chunks (addr off bufLen : Z) : list (Z * Z * Z)
  by wf (Z.to_nat bufLen) lt :=
  chunks addr off bufLen with Z_gt_dec bufLen 0 := {
    | left _ =>
        let count := pageCount addr bufLen in
        (addr, off, count)
          :: chunks (wrap (addr + count)) (off + count) (wrap (bufLen - count))
    | right _ => [] }.
Proof. page_loop_decreases. Qed.

(** Running a list of page operations in order. *)
Definition read_pages (buf : Z) (l : list (Z * Z * Z)) (w : world) : world :=
  fold_left (fun w '(a, o, c) => readPageSync a (buf + o) c w) l w.

Fixpoint write_pages (polls : nat) (buf : list Z) (l : list (Z * Z * Z)) : M unit :=
  match l with
  | [] => ret tt
  | (a, o, c) :: l' =>
      writePageSync polls a (skipn (Z.to_nat o) buf) c ;; write_pages polls buf l'
  end.

(** The bus traffic of the page read for one entry. *)
Definition page_read_events (pin buf : Z) (x : Z * Z * Z) : list event :=
  let '(a, o, c) := x in
  read_command pin a (buf + o) c false ++ [EvDigitalWrite pin HIGH].

(** The number of 256-byte pages the byte range [a, a+n) meets. *)
Definition pages_met (a n : Z) : Z :=
  if n <=? 0 then 0 else (a + n - 1) / PAGE_SIZE - a / PAGE_SIZE + 1.

(** A split of the range starting at [a] into consecutive pieces of the given
    lengths, none of which is empty or crosses a page boundary. *)
Fixpoint page_split (a : Z) (lens : list Z) : Prop :=
  match lens with
  | [] => True
  | c :: rest =>
      1 <= c /\ a / PAGE_SIZE = (a + c - 1) / PAGE_SIZE /\ page_split (a + c) rest
  end.

(** What one entry of a multi-page transfer of [n] bytes has to look like:
    its count is the distance from its address to the next page boundary,
    capped at the bytes that remain; it is not empty, not longer than a
    page, and begins and ends in the same page. *)
Definition chunk_ok (n : Z) (x : Z * Z * Z) : Prop :=
  let '(ai, oi, ci) := x in
  ci = Z.min (PAGE_SIZE - ai mod PAGE_SIZE) (n - oi)
  /\ 1 <= ci <= PAGE_SIZE
  /\ ai / PAGE_SIZE = (ai + ci - 1) / PAGE_SIZE.

(** The entries follow each other without gap or overlap from offset [from]
    to offset [to] of a transfer that starts at address [a0]. *)
Fixpoint exact_cover (a0 from to : Z) (l : list (Z * Z * Z)) : Prop :=
  match l with
  | [] => from = to
  | (ai, oi, ci) :: l' =>
      ai = wrap (a0 + from) /\ oi = from /\ exact_cover a0 (from + ci) to l'
  end.

(** Every wait on this chip ends within [polls] status reads. *)
Definition responsive (polls : nat) (c : nat -> nat -> Z) : Prop :=
  forall n, exists k, (k < polls)%nat /\ settles c n k.

Definition is_spi_begin (e : event) : bool :=
  match e with EvSpiBegin _ _ => true | _ => false end.
Definition is_bit_order (e : event) : bool :=
  match e with EvSetBitOrder _ _ => true | _ => false end.
Definition is_clock_speed (e : event) : bool :=
  match e with EvSetClockSpeed _ _ _ => true | _ => false end.
Definition is_data_mode (e : event) : bool :=
  match e with EvSetDataMode _ _ => true | _ => false end.
Definition is_delay (e : event) : bool :=
  match e with EvDelay _ => true | _ => false end.
Definition is_callback (e : event) : bool :=
  match e with EvCallback _ _ => true | _ => false end.
Definition is_write_enable (e : event) : bool :=
  match e with
  | EvTransfer _ (Some (Some 0x06 :: _)) _ _ _ => true
  | _ => false
  end.

(** Events other than [spi.begin] and the three bus settings. *)
Definition config_free (e : event) : bool :=
  negb (is_spi_begin e || is_bit_order e || is_clock_speed e || is_data_mode e).

(** [w'] comes from [w] by bus traffic that leaves the object and the bus
    configuration alone. *)
Definition extends (w w' : world) : Prop :=
  spi w' = spi w /\ cs w' = cs w /\ sharedBus w' = sharedBus w
  /\ chip w' = chip w
  /\ exists evs, trace w' = trace w ++ evs /\ forallb config_free evs = true.

(** An operation that does so from every world with a dedicated bus. *)
Definition quiet {A} (m : M A) : Prop :=
  forall w, sharedBus w = false -> extends w (world_of (m w)).

Definition occurrences (p : event -> bool) (t : list event) : nat :=
  length (filter p t).

(** What holds of every world a program can reach: the bus is dedicated, and
    each of the three settings was applied as many times as [spi.begin] was
    called. *)
Definition configured_in_begin_only (w : world) : Prop :=
  sharedBus w = false
  /\ occurrences is_bit_order (trace w) = occurrences is_spi_begin (trace w)
  /\ occurrences is_clock_speed (trace w) = occurrences is_spi_begin (trace w)
  /\ occurrences is_data_mode (trace w) = occurrences is_spi_begin (trace w).

(** ** Vocabulary of the further statements *)

(** The pending-operation record. *)
Definition record (w : world) : ptr * Z * Z :=
  (_spiFlash w, _callback w, _callbackParam w).

(** Chip-select is active when the last level the driver wrote to its pin is
    [LOW] (the driver calls [digitalWrite] on no other pin). *)
Definition cs_step (active : bool) (e : event) : bool :=
  match e with
  | EvDigitalWrite _ LOW => true
  | EvDigitalWrite _ HIGH => false
  | _ => active
  end.

Definition cs_active (t : list event) : bool := fold_left cs_step t false.

Definition is_async_transfer (e : event) : bool :=
  match e with EvTransfer _ _ _ _ true => true | _ => false end.

Definition is_async (c : api) : bool :=
  match c with
  | ReadPageAsync _ _ _ _ _ | WritePageAsync _ _ _ _ _ => true
  | _ => false
  end.

(** What a step of an operation may rely on and has to re-establish: a
    dedicated bus, the pending-operation record, the level of chip-select,
    and how often a callback was called and an asynchronous transfer
    started. *)
Definition st (r : ptr * Z * Z) (b : bool) (nc na : nat) (w : world) : Prop :=
  sharedBus w = false
  /\ record w = r
  /\ cs_active (trace w) = b
  /\ occurrences is_callback (trace w) = nc
  /\ occurrences is_async_transfer (trace w) = na.

(** From a world in [P], the operation returns in [Q], or is still polling
    in [R]. *)
Definition triple {A} (P : world -> Prop) (m : M A) (Q R : world -> Prop) : Prop :=
  forall w, P w ->
    match m w with
    | Ret _ w' => Q w'
    | Polling w' => R w'
    end.

(** The page programs on the bus: a four-byte transfer with opcode 0x02 and
    the transfer that follows it, as the address in the header and the
    bytes sent. *)
Fixpoint programmed (t : list event) : list (Z * list txbyte) :=
  match t with
  | [] => []
  | e :: t1 =>
      match e, t1 with
      | EvTransfer _ (Some [Some op; Some a2; Some a1; Some a0]) None _ _,
        EvTransfer _ (Some data) None _ _ :: t2 =>
          if op =? 0x02
          then (a2 * 65536 + a1 * 256 + a0, data) :: programmed t2
          else programmed t1
      | _, _ => programmed t1
      end
  end.

(** The page program the write loop asks for with one entry of [chunks]. *)
Definition page_program (buf : list Z) (x : Z * Z * Z) : Z * list txbyte :=
  let '(a, o, c) := x in
  (a mod 2 ^ 24, map Some (firstn (Z.to_nat c) (skipn (Z.to_nat o) buf))).


(** One more pending operation than callbacks called, at most. *)
Definition pending_count (w : world) : nat :=
  match _spiFlash w with THIS => 1 | NULL => 0 end.


(** From [w] to [w'] the trace has grown by events none of which is the
    call of a callback, and either the pending-operation record is as it
    was or an asynchronous transfer has been started. *)
Definition advances (w w' : world) : Prop :=
  sharedBus w' = false
  /\ cs w' = cs w
  /\ (exists evs, trace w' = trace w ++ evs
                  /\ occurrences is_callback evs = 0%nat)
  /\ (occurrences is_async_transfer (trace w)
      <= occurrences is_async_transfer (trace w'))%nat
  /\ (record w' = record w
      \/ (occurrences is_async_transfer (trace w)
          < occurrences is_async_transfer (trace w'))%nat).

(** The driver has called a callback no more often than it has started
    asynchronous transfers, counting one for an operation still recorded. *)
Definition callbacks_bounded (w : world) : Prop :=
  sharedBus w = false
  /\ (pending_count w + occurrences is_callback (trace w)
      <= occurrences is_async_transfer (trace w))%nat.

(** The opcodes of the page program and of the three erases. *)
Definition state_changing (op : Z) : bool :=
  (op =? 0x02) || (op =? 0xD7) || (op =? 0xD8) || (op =? 0xC7).

(** Reading a trace for the write-enable discipline.  The first transfer
    after chip-select goes low carries the command.  [Armed] is reached only
    by a chip-select bracket that holds the single command 0x06, followed at
    once by a delay of at least 3 microseconds; [ArmedSelected] only by
    driving chip-select low at once after that. *)
Inductive wel :=
| Unarmed          (* chip-select high, no write-enable in effect *)
| Selected         (* chip-select low, no command sent yet *)
| EnableSent       (* in a bracket whose command was 0x06 *)
| EnableDone       (* that bracket is closed *)
| Armed            (* and the delay has passed *)
| ArmedSelected    (* chip-select low right after, no command sent yet *)
| InCommand.       (* in a bracket, after its command *)

(** [None]: a program or erase command that does not come right after a
    write-enable. *)
Definition wel_step (s : wel) (e : event) : option wel :=
  match e with
  | EvDigitalWrite _ LOW =>
      Some match s with Armed => ArmedSelected | _ => Selected end
  | EvDigitalWrite _ HIGH =>
      Some match s with EnableSent => EnableDone | _ => Unarmed end
  | EvDelayMicroseconds us =>
      Some match s with
           | EnableDone => if 3 <=? us then Armed else Unarmed
           | Selected | ArmedSelected => Selected
           | EnableSent | InCommand => InCommand
           | _ => Unarmed
           end
  | EvTransfer _ tx _ _ _ =>
      match s with
      | EnableSent | InCommand => Some InCommand
      | _ =>
          match tx with
          | Some (Some op :: rest) =>
              if state_changing op then
                match s with ArmedSelected => Some InCommand | _ => None end
              else if (op =? 0x06) && (length rest =? 0)%nat then
                match s with
                | Selected | ArmedSelected => Some EnableSent
                | _ => Some Unarmed
                end
              else
                match s with
                | Selected | ArmedSelected => Some InCommand
                | _ => Some Unarmed
                end
          | _ =>
              match s with
              | Selected | ArmedSelected => Some InCommand
              | _ => Some Unarmed
              end
          end
      end
  | _ =>
      Some match s with
           | Selected | ArmedSelected => Selected
           | EnableSent | InCommand => InCommand
           | _ => Unarmed
           end
  end.

Fixpoint wel_scan (s : wel) (t : list event) : option wel :=
  match t with
  | [] => Some s
  | e :: t' =>
      match wel_step s e with
      | Some s' => wel_scan s' t'
      | None => None
      end
  end.

(** A world with a dedicated bus whose trace reads without fault up to the
    state [s]. *)
Definition wl (s : wel) (w : world) : Prop :=
  sharedBus w = false /\ wel_scan Unarmed (trace w) = Some s.

Definition wl_some (w : world) : Prop := exists s, wl s w.

(** ** Callbacks and chips to run the driver against *)

(** A callback that calls nothing of the driver. *)
Definition no_calls : Z -> Z -> world -> script := fun _ _ _ => Stop.

(** A callback that starts the next read, with itself as callback. *)
Definition chain_read : Z -> Z -> world -> script :=
  fun fn param _ => Do (ReadPageAsync 0x100 0 16 fn param) (fun _ => Stop).


(** A chip that never reports a write in progress. *)
Definition idle_chip : nat -> nat -> Z := fun _ _ => 0.

(** A chip that is busy for the first two status reads. *)
Definition busy_twice : nat -> nat -> Z :=
  fun n _ => if (n <? 2)%nat then 0x01 else 0x00.

(** * Properties *)

(** ** Worlds and traces *)

Lemma after_after evs1 n1 evs2 n2 w :
  after evs2 n2 (after evs1 n1 w) = after (evs1 ++ evs2) (n1 + n2) w.
Proof.
  unfold after; simpl. rewrite <- app_assoc, Nat.add_assoc. reflexivity.
Qed.

Lemma after_nil w : after [] 0 w = w.
Proof.
  destruct w; unfold after; simpl. rewrite app_nil_r, Nat.add_0_r. reflexivity.
Qed.

Lemma emit_after e w : emit e w = after [e] 0 w.
Proof. unfold emit, after. rewrite Nat.add_0_r. reflexivity. Qed.

Lemma count_transfer_after w : count_transfer w = after [] 1 w.
Proof.
  unfold count_transfer, after. rewrite app_nil_r, Nat.add_1_r. reflexivity.
Qed.

Lemma SPI_transfer_after tx rx len completion w :
  snd (SPI_transfer tx rx len completion w)
  = after [EvTransfer SPI tx rx len completion] 1 w.
Proof.
  unfold SPI_transfer; simpl.
  rewrite count_transfer_after, emit_after, after_after. reflexivity.
Qed.

Lemma endTransaction_after w :
  endTransaction w = after [EvDigitalWrite (cs w) HIGH] 0 w.
Proof. apply emit_after. Qed.

Lemma beginTransaction_after w :
  sharedBus w = false ->
  beginTransaction w = after [EvDigitalWrite (cs w) LOW] 0 w.
Proof.
  intros H. unfold beginTransaction. rewrite H. apply emit_after.
Qed.

(** Rewriting a straight-line operation into one [after]. *)
Ltac to_after :=
  repeat first
    [ rewrite SPI_transfer_after
    | rewrite endTransaction_after
    | rewrite beginTransaction_after by (simpl; assumption)
    | rewrite emit_after
    | rewrite after_after ];
  simpl.

Lemma setInstWithAddr_header inst addr :
  0 <= inst < 256 ->
  setInstWithAddr inst addr (uninit 4) = header inst addr.
Proof.
  intros H. unfold setInstWithAddr, header, u8; simpl.
  rewrite (Z.mod_small inst) by lia. reflexivity.
Qed.

Lemma readStatus_after w :
  sharedBus w = false ->
  readStatus w = (rxbyte w 1, after (status_read (cs w)) 1 w).
Proof.
  intros H. unfold readStatus, SPI_transfer.
  rewrite beginTransaction_after by assumption. simpl. f_equal.
  - unfold rxbyte; simpl. rewrite Nat.add_0_r. reflexivity.
  - rewrite count_transfer_after. to_after. reflexivity.
Qed.

Lemma isWriteInProgress_after w :
  sharedBus w = false ->
  isWriteInProgress w = (wip (chip w) (xfers w), after (status_read (cs w)) 1 w).
Proof.
  intros H. unfold isWriteInProgress. rewrite readStatus_after by assumption.
  reflexivity.
Qed.

Lemma writeEnable_after w :
  sharedBus w = false ->
  writeEnable w = after (write_enable (cs w)) 1 w.
Proof.
  intros H. unfold writeEnable, delayMicroseconds. to_after. reflexivity.
Qed.

Lemma readPageCommon_after addr buf bufLen completion w :
  sharedBus w = false ->
  readPageCommon addr buf bufLen completion w
  = after (read_command (cs w) addr buf bufLen completion) 2 w.
Proof.
  intros H. unfold readPageCommon.
  rewrite setInstWithAddr_header by lia. to_after. reflexivity.
Qed.

Lemma readPageSync_after addr buf bufLen w :
  sharedBus w = false ->
  readPageSync addr buf bufLen w
  = after (read_command (cs w) addr buf bufLen false
             ++ [EvDigitalWrite (cs w) HIGH]) 2 w.
Proof.
  intros H. unfold readPageSync.
  rewrite readPageCommon_after by assumption. to_after. reflexivity.
Qed.

Lemma writePageCommon_after addr buf bufLen completion w :
  sharedBus w = false ->
  writePageCommon addr buf bufLen completion w
  = after (write_enable (cs w)
             ++ program_command (cs w) addr buf bufLen completion) 3 w.
Proof.
  intros H. unfold writePageCommon.
  rewrite setInstWithAddr_header by lia.
  rewrite writeEnable_after by assumption. to_after. reflexivity.
Qed.

(** ** Waiting for the chip *)

Lemma wait_step_busy polls w :
  sharedBus w = false ->
  wip (chip w) (xfers w) = true ->
  waitForWriteComplete (S polls) w
  = waitForWriteComplete polls
      (after (status_read (cs w) ++ [EvDelay 1]) 1 w).
Proof.
  intros Hs Hb. simpl. unfold bind, call.
  rewrite isWriteInProgress_after by assumption. rewrite Hb.
  unfold run, delay. to_after. reflexivity.
Qed.

Lemma wait_step_idle polls w :
  sharedBus w = false ->
  wip (chip w) (xfers w) = false ->
  waitForWriteComplete (S polls) w = Ret tt (after (status_read (cs w)) 1 w).
Proof.
  intros Hs Hb. simpl. unfold bind, call.
  rewrite isWriteInProgress_after by assumption. rewrite Hb. reflexivity.
Qed.

Lemma settles_next c n k :
  settles c n (S k) -> wip c n = true /\ settles c (n + 1) k.
Proof.
  intros [Hb Hi]. split.
  - rewrite <- (Nat.add_0_r n). apply Hb. lia.
  - split.
    + intros j Hj. replace (n + 1 + j)%nat with (n + S j)%nat by lia.
      apply Hb. lia.
    + replace (n + 1 + k)%nat with (n + S k)%nat by lia. exact Hi.
Qed.

Lemma wait_returns k : forall polls w,
  sharedBus w = false ->
  settles (chip w) (xfers w) k ->
  (k < polls)%nat ->
  waitForWriteComplete polls w = Ret tt (after (wait_events (cs w) k) (S k) w).
Proof.
  induction k as [|k IH]; intros polls w Hs Hk Hlt;
    destruct polls as [|polls]; try lia.
  - destruct Hk as [_ Hi]. rewrite Nat.add_0_r in Hi.
    apply wait_step_idle; assumption.
  - apply settles_next in Hk. destruct Hk as [Hb Hk].
    rewrite wait_step_busy by assumption.
    rewrite IH by (simpl; auto; lia).
    rewrite after_after. reflexivity.
Qed.

Lemma wait_polling polls : forall w,
  sharedBus w = false ->
  (forall j, (j < polls)%nat -> wip (chip w) (xfers w + j) = true) ->
  waitForWriteComplete polls w
  = Polling (after (busy_polls (cs w) polls) polls w).
Proof.
  induction polls as [|polls IH]; intros w Hs Hb.
  - simpl. rewrite after_nil. reflexivity.
  - rewrite wait_step_busy; try assumption.
    2:{ rewrite <- (Nat.add_0_r (xfers w)). apply Hb. lia. }
    rewrite IH; simpl; auto.
    + rewrite after_after. reflexivity.
    + intros j Hj. replace (xfers w + 1 + j)%nat with (xfers w + S j)%nat by lia.
      apply Hb. lia.
Qed.

(** ** Command framing *)

Lemma shift_bytes a :
  Z.shiftr a 16 = a / 65536 /\ Z.shiftr a 8 = a / 256.
Proof.
  split; rewrite Z.shiftr_div_pow2 by lia; reflexivity.
Qed.

(** C2. For every opcode [O] and address [A] the framed header is the four
    bytes [O, (A >> 16) mod 256, (A >> 8) mod 256, A mod 256]: the opcode and
    then the low 24 bits of the address, most significant byte first.  The
    three address bytes add up to [A mod 2^24], two addresses equal modulo
    [2^24] give the same header, and the address 0x123456 is framed as
    [O, 0x12, 0x34, 0x56]. *)
Theorem setInstWithAddr_frame (O A : Z) :
  0 <= O < 256 ->
  setInstWithAddr O A (uninit 4)
  = [Some O; Some (Z.shiftr A 16 mod 256); Some (Z.shiftr A 8 mod 256);
     Some (A mod 256)]
  /\ length (setInstWithAddr O A (uninit 4)) = 4%nat
  /\ (Z.shiftr A 16 mod 256) * 65536 + (Z.shiftr A 8 mod 256) * 256 + A mod 256
     = A mod 2 ^ 24
  /\ (forall B, A mod 2 ^ 24 = B mod 2 ^ 24 ->
        setInstWithAddr O B (uninit 4) = setInstWithAddr O A (uninit 4))
  /\ setInstWithAddr O 0x123456 (uninit 4)
     = [Some O; Some 0x12; Some 0x34; Some 0x56].
Proof.
  intros HO.
  assert (Hframe : forall X, setInstWithAddr O X (uninit 4)
            = [Some O; Some (Z.shiftr X 16 mod 256);
               Some (Z.shiftr X 8 mod 256); Some (X mod 256)]).
  { intros X. rewrite setInstWithAddr_header by assumption. reflexivity. }
  assert (Hlow : forall X,
            (Z.shiftr X 16 mod 256) * 65536 + (Z.shiftr X 8 mod 256) * 256
            + X mod 256 = X mod 2 ^ 24).
  { intros X. destruct (shift_bytes X) as [-> ->].
    change (2 ^ 24) with 16777216.
    Z.div_mod_to_equations. lia. }
  assert (Hbytes : forall X Y, X mod 2 ^ 24 = Y mod 2 ^ 24 ->
            Z.shiftr X 16 mod 256 = Z.shiftr Y 16 mod 256 /\
            Z.shiftr X 8 mod 256 = Z.shiftr Y 8 mod 256 /\
            X mod 256 = Y mod 256).
  { intros X Y. destruct (shift_bytes X) as [-> ->].
    destruct (shift_bytes Y) as [-> ->].
    change (2 ^ 24) with 16777216. intros HXY.
    Z.div_mod_to_equations. lia. }
  split; [|split; [|split; [|split]]].
  - apply Hframe.
  - rewrite Hframe. reflexivity.
  - apply Hlow.
  - intros B HAB. rewrite !Hframe.
    destruct (Hbytes A B HAB) as (-> & -> & ->). reflexivity.
  - rewrite Hframe. reflexivity.
Qed.

Lemma setInstWithAddr_frame_witness :
  setInstWithAddr 0x03 0x1000FF (uninit 4)
  = [Some 0x03; Some 0x10; Some 0x00; Some 0xFF]
  /\ setInstWithAddr 0x03 0x51000FF (uninit 4)
     = setInstWithAddr 0x03 0x1000FF (uninit 4).
Proof.
  destruct (setInstWithAddr_frame 0x03 0x1000FF ltac:(lia))
    as (Hf & _ & _ & Hc & _).
  split.
  - exact Hf.
  - apply Hc. reflexivity.
Defined.

(** ** Identification *)

Lemma beginTransaction_platform w :
  xfers (beginTransaction w) = xfers w /\ chip (beginTransaction w) = chip w.
Proof.
  unfold beginTransaction. destruct (sharedBus w); split; reflexivity.
Qed.

Lemma jedecIdRead_bytes w :
  fst (jedecIdRead w) = (rxbyte w 1, rxbyte w 2, rxbyte w 3).
Proof.
  unfold jedecIdRead, SPI_transfer; simpl. unfold rxbyte.
  destruct (beginTransaction_platform w) as [-> ->]. reflexivity.
Qed.

Lemma isValidChip_test w :
  fst (isValidChip w)
  = (rxbyte w 1 =? 0x9d) && (rxbyte w 2 =? 0x13) && (rxbyte w 3 =? 0x44).
Proof.
  unfold isValidChip.
  pose proof (jedecIdRead_bytes w) as H.
  destruct (jedecIdRead w) as [[[m d1] d2] w']. simpl in H.
  inversion H; subst. reflexivity.
Qed.

(** C7. [isValidChip] always returns, and returns [true] exactly when the
    identification bytes, which [jedecIdRead] takes from positions 1, 2 and 3
    of the response (position 0 is dropped), are 0x9D, 0x13 and 0x44; if any
    of the three differs it returns [false]. *)
Theorem isValidChip_iff (w : world) :
  fst (jedecIdRead w) = (rxbyte w 1, rxbyte w 2, rxbyte w 3)
  /\ (fst (isValidChip w) = true
      <-> (rxbyte w 1, rxbyte w 2, rxbyte w 3) = (0x9D, 0x13, 0x44))
  /\ (fst (isValidChip w) = false
      <-> (rxbyte w 1, rxbyte w 2, rxbyte w 3) <> (0x9D, 0x13, 0x44)).
Proof.
  split; [apply jedecIdRead_bytes|].
  rewrite isValidChip_test.
  destruct (Z.eqb_spec (rxbyte w 1) 0x9d) as [-> | H1];
    destruct (Z.eqb_spec (rxbyte w 2) 0x13) as [-> | H2];
    destruct (Z.eqb_spec (rxbyte w 3) 0x44) as [-> | H3]; simpl;
    (split; split; intros H;
     try reflexivity; try discriminate; try congruence;
     try (intros E; inversion E; congruence);
     try (exfalso; apply H; reflexivity)).
Qed.

(** ** Status polling *)

(** C8. When the chip reports no write in progress, [waitForWriteComplete]
    returns after one status read: chip-select low, the two-byte transfer
    with opcode 0x05, chip-select high.  There is no delay, and the object
    and the pending-operation record are as before.  Calling it again while
    the chip still reports no write in progress does the same. *)
Theorem waitForWriteComplete_idle (polls : nat) (w : world) :
  sharedBus w = false ->
  wip (chip w) (xfers w) = false ->
  (0 < polls)%nat ->
  let w1 := after (status_read (cs w)) 1 w in
  waitForWriteComplete polls w = Ret tt w1
  /\ trace w1
     = trace w ++ [EvDigitalWrite (cs w) LOW;
                   EvTransfer SPI (Some [Some 0x05; None]) (Some RxLocal) 2 false;
                   EvDigitalWrite (cs w) HIGH]
  /\ occurrences is_delay (trace w1) = occurrences is_delay (trace w)
  /\ (sharedBus w1, _spiFlash w1, _callback w1, _callbackParam w1)
     = (sharedBus w, _spiFlash w, _callback w, _callbackParam w)
  /\ (wip (chip w) (S (xfers w)) = false ->
      waitForWriteComplete polls w1 = Ret tt (after (status_read (cs w)) 1 w1)).
Proof.
  intros Hs Hi Hp w1. destruct polls as [|polls]; [lia|].
  split; [|split; [|split; [|split]]].
  - apply wait_step_idle; assumption.
  - reflexivity.
  - subst w1. unfold occurrences, after; simpl.
    rewrite filter_app, length_app. simpl. lia.
  - reflexivity.
  - intros Hi'. apply (wait_step_idle polls w1).
    + exact Hs.
    + subst w1; simpl. rewrite Nat.add_1_r. exact Hi'.
Qed.

Lemma waitForWriteComplete_idle_witness :
  let w := begin (SpiFlash_new SPI 5 (fun _ _ => 0)) in
  waitForWriteComplete 1 w = Ret tt (after (status_read 5) 1 w)
  /\ waitForWriteComplete 1 (after (status_read 5) 1 w)
     = Ret tt (after (status_read 5) 1 (after (status_read 5) 1 w)).
Proof.
  intros w.
  destruct (waitForWriteComplete_idle 1 w eq_refl eq_refl ltac:(lia))
    as (H1 & _ & _ & _ & H2).
  split.
  - exact H1.
  - apply H2. reflexivity.
Defined.

(** ** Single-page writes *)

Lemma writePageSync_after polls addr buf bufLen w k1 k2 :
  sharedBus w = false ->
  settles (chip w) (xfers w) k1 ->
  settles (chip w) (xfers w + k1 + 4) k2 ->
  (k1 < polls)%nat -> (k2 < polls)%nat ->
  writePageSync polls addr buf bufLen w
  = Ret tt (after (wait_events (cs w) k1
                     ++ write_enable (cs w)
                     ++ program_command (cs w) addr buf bufLen false
                     ++ [EvDigitalWrite (cs w) HIGH]
                     ++ wait_events (cs w) k2)
                  (k1 + k2 + 5) w).
Proof.
  intros Hs H1 H2 Hk1 Hk2. unfold writePageSync, bind, run.
  rewrite (wait_returns k1) by assumption.
  rewrite writePageCommon_after by assumption.
  rewrite endTransaction_after, !after_after. simpl cs.
  rewrite (wait_returns k2); simpl; trivial.
  - rewrite after_after. f_equal. f_equal.
    + rewrite <- !app_assoc. reflexivity.
    + lia.
  - match goal with
    | |- settles _ ?n _ => replace n with (xfers w + k1 + 4)%nat by lia
    end.
    exact H2.
Qed.

(** C3. [writePageSync] does, in this order: poll the status register until
    the chip reports no write in progress; send the write-enable command;
    drive chip-select active; send the four-byte header (opcode 0x02 and the
    address) and then the [bufLen] payload bytes; drive chip-select
    inactive; poll again until the chip reports no write in progress.  The
    last thing on the bus before it returns is a status read that the chip
    answered with the write-in-progress bit clear. *)
Theorem writePageSync_sequence (polls : nat) (addr : Z) (buf : list Z)
    (bufLen : Z) (w : world) (k1 k2 : nat) :
  sharedBus w = false ->
  settles (chip w) (xfers w) k1 ->
  settles (chip w) (xfers w + k1 + 4) k2 ->
  (k1 < polls)%nat -> (k2 < polls)%nat ->
  exists w',
    writePageSync polls addr buf bufLen w = Ret tt w'
    /\ trace w'
       = trace w
         ++ wait_events (cs w) k1
         ++ [EvDigitalWrite (cs w) LOW;
             EvTransfer SPI (Some [Some 0x06]) None 1 false;
             EvDigitalWrite (cs w) HIGH;
             EvDelayMicroseconds 3]
         ++ [EvDigitalWrite (cs w) LOW;
             EvTransfer SPI (Some (header 0x02 addr)) None 4 false;
             EvTransfer SPI (Some (map Some (firstn (Z.to_nat bufLen) buf)))
                        None bufLen false;
             EvDigitalWrite (cs w) HIGH]
         ++ wait_events (cs w) k2
    /\ xfers w' = (xfers w + k1 + k2 + 5)%nat
    /\ wip (chip w') (xfers w' - 1) = false.
Proof.
  intros Hs H1 H2 Hk1 Hk2. eexists. split; [|split; [|split]].
  - apply writePageSync_after; eassumption.
  - reflexivity.
  - simpl. lia.
  - simpl. destruct H2 as [_ H2].
    replace (xfers w + (k1 + k2 + 5) - 1)%nat with (xfers w + k1 + 4 + k2)%nat
      by lia.
    exact H2.
Qed.

Lemma writePageSync_sequence_witness :
  exists w',
    writePageSync 3 0x1000F0 [1; 2; 3] 3 (begin (SpiFlash_new SPI 5 busy_twice))
    = Ret tt w'
    /\ wip (chip w') (xfers w' - 1) = false.
Proof.
  destruct (writePageSync_sequence 3 0x1000F0 [1; 2; 3] 3
              (begin (SpiFlash_new SPI 5 busy_twice)) 2 0) as (w' & H & _ & _ & Hd).
  - reflexivity.
  - split; [intros [|[|j]] Hj; try reflexivity; simpl in Hj; lia | reflexivity].
  - split; [intros j Hj; lia | reflexivity].
  - lia.
  - lia.
  - exists w'. split; assumption.
Defined.

(** ** Asynchronous page operations *)

Lemma readPageAsync_after addr buf bufLen callback param w :
  sharedBus w = false ->
  readPageAsync addr buf bufLen callback param w
  = after (read_command (cs w) addr buf bufLen true) 2
          (set_pending THIS callback param w).
Proof.
  intros Hs. unfold readPageAsync.
  rewrite readPageCommon_after by assumption. reflexivity.
Qed.

Lemma writePageAsync_after polls addr buf bufLen callback param w k :
  sharedBus w = false ->
  settles (chip w) (xfers w) k ->
  (k < polls)%nat ->
  writePageAsync polls addr buf bufLen callback param w
  = Ret tt
      (after (write_enable (cs w)
                ++ program_command (cs w) addr buf bufLen true) 3
         (set_pending THIS callback param
            (after (wait_events (cs w) k) (S k) w))).
Proof.
  intros Hs Hk Hlt. unfold writePageAsync, bind, run.
  rewrite (wait_returns k) by assumption.
  rewrite writePageCommon_after by assumption. reflexivity.
Qed.

Lemma writePageAsync_polling polls addr buf bufLen callback param w :
  sharedBus w = false ->
  (forall j, (j < polls)%nat -> wip (chip w) (xfers w + j) = true) ->
  writePageAsync polls addr buf bufLen callback param w
  = Polling (after (busy_polls (cs w) polls) polls w).
Proof.
  intros Hs Hb. unfold writePageAsync, bind.
  rewrite wait_polling by assumption. reflexivity.
Qed.

(** C10. [readPageAsync] records the callback and issues its read command
    at once: it reads no status and cannot block.  [writePageAsync] first
    polls the status register: while the chip reports a write in progress it
    stays in the polling loop, where nothing is recorded and no program
    command is sent; once the chip reports none, the callback is recorded
    and the write-enable and program commands follow. *)
Theorem async_wait_asymmetry (polls : nat) (addr : Z) (bufLen : Z)
    (callback param : Z) (w : world) :
  sharedBus w = false ->
  (forall buf,
     readPageAsync addr buf bufLen callback param w
     = after [EvDigitalWrite (cs w) LOW;
              EvTransfer SPI (Some (header 0x03 addr)) None 4 false;
              EvTransfer SPI None (Some (RxUser buf)) bufLen true] 2
             (set_pending THIS callback param w))
  /\ (forall buf k,
        settles (chip w) (xfers w) k -> (k < polls)%nat ->
        writePageAsync polls addr buf bufLen callback param w
        = Ret tt
            (after (write_enable (cs w)
                      ++ program_command (cs w) addr buf bufLen true) 3
               (set_pending THIS callback param
                  (after (wait_events (cs w) k) (S k) w))))
  /\ (forall buf,
        (forall j, (j < polls)%nat -> wip (chip w) (xfers w + j) = true) ->
        writePageAsync polls addr buf bufLen callback param w
        = Polling (after (busy_polls (cs w) polls) polls w)).
Proof.
  intros Hs. split; [|split].
  - intros buf. apply readPageAsync_after. assumption.
  - intros buf k Hk Hlt. apply writePageAsync_after; assumption.
  - intros buf Hb. apply writePageAsync_polling; assumption.
Qed.

Lemma async_wait_asymmetry_witness :
  let w := begin (SpiFlash_new SPI 5 busy_twice) in
  _callback (readPageAsync 0x100 0 16 0x2000 0x3000 w) = 0x2000
  /\ (exists w', writePageAsync 3 0x100 [7; 8] 2 0x2000 0x3000 w = Ret tt w'
                 /\ _callback w' = 0x2000)
  /\ (exists w', writePageAsync 2 0x100 [7; 8] 2 0x2000 0x3000 w = Polling w'
                 /\ _callback w' = 0).
Proof.
  intros w. split; [|split].
  - destruct (async_wait_asymmetry 3 0x100 16 0x2000 0x3000 w eq_refl)
      as (H & _ & _).
    rewrite H. reflexivity.
  - destruct (async_wait_asymmetry 3 0x100 2 0x2000 0x3000 w eq_refl)
      as (_ & H & _).
    eexists. split.
    + apply (H [7; 8] 2%nat); [|lia].
      split; [intros [|[|j]] Hj; try reflexivity; simpl in Hj; lia | reflexivity].
    + reflexivity.
  - destruct (async_wait_asymmetry 2 0x100 2 0x2000 0x3000 w eq_refl)
      as (_ & _ & H).
    eexists. split.
    + apply (H [7; 8]). intros [|[|j]] Hj; try reflexivity; lia.
    + reflexivity.
Defined.

(** C4, as the code has it.  The driver neither rejects nor queues an
    asynchronous operation: whether or not an earlier one is still pending,
    [readPageAsync] puts its own callback and context in the record and
    sends its read command, and so does [writePageAsync] once the chip
    reports no write in progress.  Keeping asynchronous operations apart is
    left to the caller. *)
Theorem async_issue_replaces_record (addr bufLen callback param : Z) (w : world) :
  sharedBus w = false ->
  (forall buf,
     let w' := readPageAsync addr buf bufLen callback param w in
     (_spiFlash w', _callback w', _callbackParam w') = (THIS, callback, param)
     /\ trace w' = trace w ++ read_command (cs w) addr buf bufLen true)
  /\ (forall polls buf k,
        settles (chip w) (xfers w) k -> (k < polls)%nat ->
        exists w',
          writePageAsync polls addr buf bufLen callback param w = Ret tt w'
          /\ (_spiFlash w', _callback w', _callbackParam w')
             = (THIS, callback, param)
          /\ trace w' = trace w ++ wait_events (cs w) k ++ write_enable (cs w)
                          ++ program_command (cs w) addr buf bufLen true).
Proof.
  intros Hs. split.
  - intros buf w'. subst w'. rewrite readPageAsync_after by assumption.
    split; reflexivity.
  - intros polls buf k Hk Hlt. eexists. split; [|split].
    + apply writePageAsync_after; eassumption.
    + reflexivity.
    + simpl. rewrite <- !app_assoc. reflexivity.
Qed.

Lemma async_issue_replaces_record_witness :
  let w := readPageAsync 0 0 16 0x1000 0x2000 (begin (SpiFlash_new SPI 5 idle_chip)) in
  let w' := readPageAsync 256 16 16 0x3000 0x4000 w in
  (_spiFlash w, _callback w, _callbackParam w) = (THIS, 0x1000, 0x2000)
  /\ (_spiFlash w', _callback w', _callbackParam w') = (THIS, 0x3000, 0x4000).
Proof.
  intros w w'. split; [reflexivity|].
  destruct (async_issue_replaces_record 256 16 0x3000 0x4000 w eq_refl)
    as (H & _).
  apply (H 16).
Defined.

(** C4, as the claim states it, fails: a second [readPageAsync] issued while
    the first is pending is sent to the chip like the first, and the record
    of the first is gone.  The one completion that finds a record calls the
    second callback; the first callback is never called. *)
Lemma second_async_overwrites_pending :
  let w0 := begin (SpiFlash_new SPI 5 idle_chip) in
  let w1 := readPageAsync 0 0 16 0x1000 0x2000 w0 in
  let w2 := readPageAsync 256 16 16 0x3000 0x4000 w1 in
  (_spiFlash w1, _callback w1, _callbackParam w1) = (THIS, 0x1000, 0x2000)
  /\ occurrences is_callback (trace w1) = 0%nat
  /\ (_callback w2, _callbackParam w2) <> (_callback w1, _callbackParam w1)
  /\ trace w2 = trace w1 ++ read_command 5 256 16 16 true
  /\ exists w3,
       _completion no_calls 0 w2 = Some (Ret tt w3)
       /\ trace w3 = trace w2 ++ [EvDigitalWrite 5 HIGH; EvCallback 0x3000 0x4000]
       /\ _completion no_calls 0 w3 = None.
Proof.
  intros w0 w1 w2. split; [|split; [|split; [|split]]].
  - reflexivity.
  - reflexivity.
  - intros E. discriminate E.
  - reflexivity.
  - eexists. split; [reflexivity|]. split; reflexivity.
Qed.

(** ** Write-enable before state-changing commands *)

Lemma writeStatus_after polls status w k :
  sharedBus w = false ->
  settles (chip w) (xfers w) k ->
  (k < polls)%nat ->
  writeStatus polls status w
  = Ret tt (after (wait_events (cs w) k
                     ++ [EvDigitalWrite (cs w) LOW;
                         EvTransfer SPI (Some [Some 0x01; Some (u8 status)])
                                    None 2 false;
                         EvDigitalWrite (cs w) HIGH])
                  (k + 2) w).
Proof.
  intros Hs Hk Hlt. unfold writeStatus, bind, run.
  rewrite (wait_returns k) by assumption.
  to_after. f_equal. f_equal. lia.
Qed.

(** The program and erase commands do come right after a write-enable. *)
Lemma writePageCommon_write_enable_first addr buf bufLen completion w :
  sharedBus w = false ->
  trace (writePageCommon addr buf bufLen completion w)
  = trace w ++ write_enable (cs w)
      ++ program_command (cs w) addr buf bufLen completion.
Proof.
  intros Hs. rewrite writePageCommon_after by assumption. reflexivity.
Qed.

Lemma erase_after polls (tx : list txbyte) w k1 k2 :
  sharedBus w = false ->
  settles (chip w) (xfers w) k1 ->
  settles (chip w) (xfers w + k1 + 3) k2 ->
  (k1 < polls)%nat -> (k2 < polls)%nat ->
  (waitForWriteComplete polls ;;
   run writeEnable ;;
   run beginTransaction ;;
   run (fun w => snd (SPI_transfer (Some tx) None (Z.of_nat (length tx)) false w)) ;;
   run endTransaction ;;
   waitForWriteComplete polls) w
  = Ret tt (after (wait_events (cs w) k1 ++ write_enable (cs w)
                     ++ erase_command (cs w) tx ++ wait_events (cs w) k2)
                  (k1 + k2 + 4) w).
Proof.
  intros Hs H1 H2 Hk1 Hk2. unfold bind, run.
  rewrite (wait_returns k1) by assumption.
  rewrite writeEnable_after by assumption. to_after.
  rewrite (wait_returns k2); simpl; trivial.
  - rewrite after_after. f_equal. f_equal.
    + rewrite <- !app_assoc. reflexivity.
    + lia.
  - match goal with
    | |- settles _ ?n _ => replace n with (xfers w + k1 + 3)%nat by lia
    end.
    exact H2.
Qed.

Lemma sectorErase_write_enable_first polls addr w k1 k2 :
  sharedBus w = false ->
  settles (chip w) (xfers w) k1 ->
  settles (chip w) (xfers w + k1 + 3) k2 ->
  (k1 < polls)%nat -> (k2 < polls)%nat ->
  sectorErase polls addr w
  = Ret tt (after (wait_events (cs w) k1 ++ write_enable (cs w)
                     ++ erase_command (cs w) (header 0xD7 addr)
                     ++ wait_events (cs w) k2)
                  (k1 + k2 + 4) w).
Proof.
  intros. unfold sectorErase. rewrite setInstWithAddr_header by lia.
  apply (erase_after polls (header 0xD7 addr)); assumption.
Qed.

Lemma blockErase_write_enable_first polls addr w k1 k2 :
  sharedBus w = false ->
  settles (chip w) (xfers w) k1 ->
  settles (chip w) (xfers w + k1 + 3) k2 ->
  (k1 < polls)%nat -> (k2 < polls)%nat ->
  blockErase polls addr w
  = Ret tt (after (wait_events (cs w) k1 ++ write_enable (cs w)
                     ++ erase_command (cs w) (header 0xD8 addr)
                     ++ wait_events (cs w) k2)
                  (k1 + k2 + 4) w).
Proof.
  intros. unfold blockErase. rewrite setInstWithAddr_header by lia.
  apply (erase_after polls (header 0xD8 addr)); assumption.
Qed.

Lemma chipErase_write_enable_first polls w k1 k2 :
  sharedBus w = false ->
  settles (chip w) (xfers w) k1 ->
  settles (chip w) (xfers w + k1 + 3) k2 ->
  (k1 < polls)%nat -> (k2 < polls)%nat ->
  chipErase polls w
  = Ret tt (after (wait_events (cs w) k1 ++ write_enable (cs w)
                     ++ erase_command (cs w) [Some 0xC7]
                     ++ wait_events (cs w) k2)
                  (k1 + k2 + 4) w).
Proof.
  intros. unfold chipErase.
  apply (erase_after polls [Some 0xC7]); assumption.
Qed.

(** C5 fails on [writeStatus].  On a chip that reports no write in progress,
    [writeStatus(0x02)] reads the status once and then sends opcode 0x01 with
    the payload byte: no write-enable command (opcode 0x06) is on the bus
    before it, although [writeEnable] is documented as enabling writes to
    the status register and page program and the erases are preceded by
    it. *)
Theorem writeStatus_without_write_enable :
  let w := begin (SpiFlash_new SPI 5 idle_chip) in
  exists w',
    writeStatus 1 0x02 w = Ret tt w'
    /\ trace w'
       = trace w
         ++ [EvDigitalWrite 5 LOW;
             EvTransfer SPI (Some [Some 0x05; None]) (Some RxLocal) 2 false;
             EvDigitalWrite 5 HIGH;
             EvDigitalWrite 5 LOW;
             EvTransfer SPI (Some [Some 0x01; Some 0x02]) None 2 false;
             EvDigitalWrite 5 HIGH]
    /\ occurrences is_write_enable (trace w') = 0%nat.
Proof.
  intros w. eexists. split; [|split].
  - apply (writeStatus_after 1 0x02 w 0).
    + reflexivity.
    + split; [intros j Hj; lia | reflexivity].
    + lia.
  - reflexivity.
  - reflexivity.
Qed.

(** ** Multi-page transfers *)

Lemma pageCount_min a n :
  pageCount a n = Z.min (PAGE_SIZE - a mod PAGE_SIZE) n.
Proof.
  unfold pageCount, wrap, PAGE_SIZE.
  rewrite Zplus_mod_idemp_l, Zminus_mod_idemp_l.
  replace (a - a mod 256 + 256 - a) with (256 - a mod 256) by ring.
  pose proof (Z.mod_pos_bound a 256 eq_refl).
  change size_max with 4294967296.
  rewrite Z.mod_small by lia.
  destruct (Z.gtb_spec (256 - a mod 256) n); lia.
Qed.

Lemma pageCount_bounds a n :
  n > 0 -> 1 <= pageCount a n <= n /\ pageCount a n <= PAGE_SIZE.
Proof.
  intros H. rewrite pageCount_min. unfold PAGE_SIZE.
  pose proof (Z.mod_pos_bound a 256 eq_refl). lia.
Qed.

Lemma wrap_small x : 0 <= x < size_max -> wrap x = x.
Proof. intros H. apply Z.mod_small. exact H. Qed.

Lemma chunks_step a off n :
  n > 0 ->
  chunks a off n
  = (a, off, pageCount a n)
      :: chunks (wrap (a + pageCount a n)) (off + pageCount a n)
                (wrap (n - pageCount a n)).
Proof.
  intros H. rewrite chunks_equation_1.
  destruct (Z_gt_dec n 0); [reflexivity | lia].
Qed.

Lemma chunks_done a off n : n <= 0 -> chunks a off n = [].
Proof.
  intros H. rewrite chunks_equation_1.
  destruct (Z_gt_dec n 0); [lia | reflexivity].
Qed.

Lemma readDataSync_step a buf n w :
  n > 0 ->
  readDataSync a buf n w
  = readDataSync (wrap (a + pageCount a n)) (buf + pageCount a n)
                 (wrap (n - pageCount a n))
                 (readPageSync a buf (pageCount a n) w).
Proof.
  intros H. rewrite readDataSync_equation_1.
  destruct (Z_gt_dec n 0); [reflexivity | lia].
Qed.

Lemma readDataSync_done a buf n w : n <= 0 -> readDataSync a buf n w = w.
Proof.
  intros H. rewrite readDataSync_equation_1.
  destruct (Z_gt_dec n 0); [lia | reflexivity].
Qed.

Lemma writeDataSync_step polls a buf n w :
  n > 0 ->
  writeDataSync polls a buf n w
  = (writePageSync polls a buf (pageCount a n) ;;
     writeDataSync polls (wrap (a + pageCount a n))
                   (skipn (Z.to_nat (pageCount a n)) buf)
                   (wrap (n - pageCount a n))) w.
Proof.
  intros H. rewrite writeDataSync_equation_1.
  destruct (Z_gt_dec n 0); [reflexivity | lia].
Qed.

Lemma writeDataSync_done polls a buf n w :
  n <= 0 -> writeDataSync polls a buf n w = Ret tt w.
Proof.
  intros H. rewrite writeDataSync_equation_1.
  destruct (Z_gt_dec n 0); [lia | reflexivity].
Qed.

(** Induction along the rounds of the multi-page loop. *)
Lemma page_loop_ind (P : Z -> Z -> Z -> Prop) :
  (forall a off n, n <= 0 -> P a off n) ->
  (forall a off n, n > 0 ->
     P (wrap (a + pageCount a n)) (off + pageCount a n)
       (wrap (n - pageCount a n)) ->
     P a off n) ->
  forall a off n, P a off n.
Proof.
  intros Hdone Hstep a off n.
  remember (Z.to_nat n) as m eqn:Hm.
  revert a off n Hm.
  induction m as [m IH] using lt_wf_ind. intros a off n Hm.
  destruct (Z_gt_dec n 0) as [Hn | Hn].
  - apply Hstep; [exact Hn|].
    apply (IH (Z.to_nat (wrap (n - pageCount a n)))); [|reflexivity].
    subst m. destruct (pageCount_bounds a n Hn) as [Hc _].
    assert (Hle : wrap (n - pageCount a n) <= n - pageCount a n)
      by (apply Z.mod_le; [lia | reflexivity]).
    pose proof (Z.mod_pos_bound (n - pageCount a n) size_max eq_refl).
    unfold wrap in *. apply Z2Nat.inj_lt; lia.
  - apply Hdone. lia.
Qed.

Lemma remaining_small a n :
  n > 0 -> n < size_max ->
  wrap (n - pageCount a n) = n - pageCount a n
  /\ 0 <= n - pageCount a n < size_max.
Proof.
  intros Hn Hlt. destruct (pageCount_bounds a n Hn) as [Hc _].
  split; [apply wrap_small|]; lia.
Qed.

Lemma readDataSync_chunks a off n : forall buf w,
  readDataSync a (buf + off) n w = read_pages buf (chunks a off n) w.
Proof.
  revert a off n. apply (page_loop_ind
    (fun a off n => forall buf w,
       readDataSync a (buf + off) n w = read_pages buf (chunks a off n) w)).
  - intros a off n Hn buf w.
    rewrite readDataSync_done, chunks_done by assumption. reflexivity.
  - intros a off n Hn IH buf w.
    rewrite readDataSync_step, chunks_step by assumption.
    unfold read_pages; simpl. rewrite <- Z.add_assoc. apply IH.
Qed.

Lemma writeDataSync_chunks a off n : forall polls buf w,
  0 <= off ->
  writeDataSync polls a (skipn (Z.to_nat off) buf) n w
  = write_pages polls buf (chunks a off n) w.
Proof.
  revert a off n. apply (page_loop_ind
    (fun a off n => forall polls buf w,
       0 <= off ->
       writeDataSync polls a (skipn (Z.to_nat off) buf) n w
       = write_pages polls buf (chunks a off n) w)).
  - intros a off n Hn polls buf w Hoff.
    rewrite writeDataSync_done, chunks_done by assumption. reflexivity.
  - intros a off n Hn IH polls buf w Hoff.
    destruct (pageCount_bounds a n Hn) as [Hc _].
    rewrite writeDataSync_step, chunks_step by assumption.
    simpl. unfold bind.
    destruct (writePageSync polls a (skipn (Z.to_nat off) buf) (pageCount a n) w)
      as [[] w' | w']; [|reflexivity].
    rewrite skipn_skipn, <- Z2Nat.inj_add by lia.
    rewrite (Z.add_comm (pageCount a n) off). apply IH. lia.
Qed.

Lemma chunks_ok a off n :
  0 <= n < size_max -> Forall (chunk_ok (off + n)) (chunks a off n).
Proof.
  revert a off n. apply (page_loop_ind
    (fun a off n => 0 <= n < size_max ->
       Forall (chunk_ok (off + n)) (chunks a off n))).
  - intros a off n Hn _. rewrite chunks_done by assumption. constructor.
  - intros a off n Hn IH Hr.
    destruct (remaining_small a n Hn ltac:(lia)) as [Hw Hr'].
    rewrite chunks_step by assumption. constructor.
    + unfold chunk_ok. rewrite pageCount_min. unfold PAGE_SIZE.
      pose proof (Z.mod_pos_bound a 256 eq_refl).
      split; [f_equal; lia|]. split; [lia|].
      assert (Hc : 1 <= Z.min (256 - a mod 256) n <= 256 - a mod 256) by lia.
      revert Hc. generalize (Z.min (256 - a mod 256) n). intros c Hc.
      Z.div_mod_to_equations. lia.
    + rewrite Hw in *.
      replace (off + n) with (off + pageCount a n + (n - pageCount a n)) by ring.
      apply IH. exact Hr'.
Qed.

Lemma chunks_cover a0 a off n :
  0 <= n < size_max ->
  a = wrap (a0 + off) ->
  exact_cover a0 off (off + n) (chunks a off n).
Proof.
  revert a off n. apply (page_loop_ind
    (fun a off n => 0 <= n < size_max -> a = wrap (a0 + off) ->
       exact_cover a0 off (off + n) (chunks a off n))).
  - intros a off n Hn Hr _. rewrite chunks_done by assumption. simpl. lia.
  - intros a off n Hn IH Hr Ha.
    destruct (remaining_small a n Hn ltac:(lia)) as [Hw Hr'].
    rewrite chunks_step by assumption. simpl.
    split; [exact Ha|]. split; [reflexivity|].
    rewrite Hw in *.
    replace (off + n) with (off + pageCount a n + (n - pageCount a n)) by ring.
    apply IH; [exact Hr'|].
    subst a. unfold wrap. rewrite Zplus_mod_idemp_l. f_equal. ring.
Qed.

Lemma pages_met_shift a t n : pages_met (a + PAGE_SIZE * t) n = pages_met a n.
Proof.
  unfold pages_met, PAGE_SIZE. destruct (n <=? 0); [reflexivity|].
  replace (a + 256 * t + n - 1) with (a + n - 1 + t * 256) by ring.
  replace (a + 256 * t) with (a + t * 256) by ring.
  rewrite !Z.div_add by lia. ring.
Qed.

Lemma pages_met_wrap a n : pages_met (wrap a) n = pages_met a n.
Proof.
  unfold wrap. rewrite Z.mod_eq by (unfold size_max, size_bits; lia).
  change size_max with (PAGE_SIZE * 16777216).
  replace (a - PAGE_SIZE * 16777216 * (a / (PAGE_SIZE * 16777216)))
    with (a + PAGE_SIZE * (- (16777216 * (a / (PAGE_SIZE * 16777216)))))
    by ring.
  apply pages_met_shift.
Qed.

Lemma chunks_length a off n :
  0 <= n < size_max -> Z.of_nat (length (chunks a off n)) = pages_met a n.
Proof.
  revert a off n. apply (page_loop_ind
    (fun a off n => 0 <= n < size_max ->
       Z.of_nat (length (chunks a off n)) = pages_met a n)).
  - intros a off n Hn _. rewrite chunks_done by assumption.
    unfold pages_met. destruct (Z.leb_spec n 0); [reflexivity | lia].
  - intros a off n Hn IH Hr.
    destruct (remaining_small a n Hn ltac:(lia)) as [Hw Hr'].
    rewrite chunks_step by assumption. simpl length.
    rewrite Nat2Z.inj_succ, IH by (rewrite Hw; exact Hr').
    rewrite Hw, pages_met_wrap, pageCount_min.
    unfold pages_met, PAGE_SIZE.
    pose proof (Z.mod_pos_bound a 256 eq_refl).
    destruct (Z.leb_spec n 0); [lia|].
    destruct (Z.leb_spec (n - Z.min (256 - a mod 256) n) 0).
    + assert (Z.min (256 - a mod 256) n = n) by lia.
      Z.div_mod_to_equations. lia.
    + assert (Hm : Z.min (256 - a mod 256) n = 256 - a mod 256) by lia.
      rewrite Hm.
      Z.div_mod_to_equations. lia.
Qed.

Lemma page_split_sum a lens :
  page_split a lens -> 0 <= fold_right Z.add 0 lens.
Proof.
  revert a. induction lens as [|c rest IH]; intros a H; simpl in *; [lia|].
  destruct H as (Hc & _ & Hrest). specialize (IH _ Hrest). lia.
Qed.

Lemma page_split_lower_bound lens : forall a n,
  page_split a lens ->
  fold_right Z.add 0 lens = n ->
  pages_met a n <= Z.of_nat (length lens).
Proof.
  induction lens as [|c rest IH]; intros a n Hs Hsum; simpl in *.
  - subst n. reflexivity.
  - destruct Hs as (Hc & Hpage & Hrest).
    pose proof (page_split_sum _ _ Hrest) as Hpos.
    specialize (IH (a + c) (n - c) Hrest ltac:(lia)).
    rewrite Zpos_P_of_succ_nat.
    revert IH Hpage. unfold pages_met, PAGE_SIZE.
    destruct (Z.leb_spec n 0); [lia|].
    destruct (Z.leb_spec (n - c) 0); intros IH Hpage.
    + replace n with c by lia. lia.
    + replace (a + c + (n - c) - 1) with (a + n - 1) in IH by ring.
      assert ((a + c) / 256 <= a / 256 + 1).
      { rewrite Hpage. Z.div_mod_to_equations. lia. }
      lia.
Qed.

(** A wait on a responsive chip ends. *)
Lemma wait_responsive polls w :
  sharedBus w = false ->
  responsive polls (chip w) ->
  exists evs n, waitForWriteComplete polls w = Ret tt (after evs n w).
Proof.
  intros Hs Hr. destruct (Hr (xfers w)) as (k & Hlt & Hk).
  eexists. eexists. apply (wait_returns k); assumption.
Qed.

Lemma writePageSync_responsive polls addr buf bufLen w :
  sharedBus w = false ->
  responsive polls (chip w) ->
  exists evs n, writePageSync polls addr buf bufLen w = Ret tt (after evs n w).
Proof.
  intros Hs Hr.
  destruct (Hr (xfers w)) as (k1 & Hlt1 & Hk1).
  destruct (Hr (xfers w + k1 + 4)%nat) as (k2 & Hlt2 & Hk2).
  eexists. eexists. apply (writePageSync_after polls addr buf bufLen w k1 k2);
    assumption.
Qed.

Lemma write_pages_responsive polls buf l : forall w,
  sharedBus w = false ->
  responsive polls (chip w) ->
  exists evs n, write_pages polls buf l w = Ret tt (after evs n w).
Proof.
  induction l as [|[[a o] c] l IH]; intros w Hs Hr.
  - exists [], 0%nat. rewrite after_nil. reflexivity.
  - simpl. unfold bind.
    destruct (writePageSync_responsive polls a (skipn (Z.to_nat o) buf) c w Hs Hr)
      as (evs1 & n1 & ->).
    destruct (IH (after evs1 n1 w) Hs Hr) as (evs2 & n2 & ->).
    rewrite after_after. eexists. eexists. reflexivity.
Qed.

Lemma chunks_linear a0 a off n :
  0 <= n < size_max -> 0 <= a0 -> 0 <= off ->
  a0 + off + n <= size_max ->
  a = a0 + off ->
  Forall (fun x => fst (fst x) = a0 + snd (fst x)) (chunks a off n).
Proof.
  revert a off n. apply (page_loop_ind
    (fun a off n => 0 <= n < size_max -> 0 <= a0 -> 0 <= off ->
       a0 + off + n <= size_max -> a = a0 + off ->
       Forall (fun x => fst (fst x) = a0 + snd (fst x)) (chunks a off n))).
  - intros a off n Hn _ _ _ _ _. rewrite chunks_done by assumption. constructor.
  - intros a off n Hn IH Hr Ha0 Hoff Hend Ha.
    destruct (remaining_small a n Hn ltac:(lia)) as [Hw Hr'].
    destruct (pageCount_bounds a n Hn) as [Hc _].
    rewrite chunks_step by assumption. constructor; [exact Ha|].
    rewrite Hw in *.
    destruct (Z.eq_dec (n - pageCount a n) 0) as [E | E].
    + rewrite chunks_done by lia. constructor.
    + apply IH; try lia. rewrite wrap_small; lia.
Qed.

Lemma read_pages_after buf l : forall w,
  sharedBus w = false ->
  read_pages buf l w
  = after (flat_map (page_read_events (cs w) buf) l) (2 * length l) w.
Proof.
  induction l as [|[[a o] c] l IH]; intros w Hs.
  - simpl. rewrite after_nil. reflexivity.
  - unfold read_pages in *. simpl fold_left.
    rewrite readPageSync_after by assumption.
    rewrite IH by exact Hs. rewrite after_after. simpl cs.
    f_equal. simpl length. lia.
Qed.

(** C1. For a start address [a] and a length [n] (both [size_t]),
    [readDataSync] and [writeDataSync] are the page operations [readPageSync]
    and [writePageSync] run over the same list of pieces, one per round of
    the loop; on the bus the read is one read command per piece.  The
    pieces follow each other without gap or overlap from [a]
    to [a + n]; the count of each is the distance from its address to the
    next 256-byte boundary, capped at the bytes that remain, so it is between
    1 and 256 and the piece begins and ends in the same page; the number of
    pieces is the number of pages the range meets, and no split of the range
    into pieces that stay within a page has fewer.  The loop ends when
    nothing remains: the read always returns, the write returns whenever the
    chip ends every wait. *)
Theorem multi_page_decomposition (a n : Z) :
  0 <= a < size_max -> 0 <= n < size_max ->
  (forall buf w, readDataSync a buf n w = read_pages buf (chunks a 0 n) w)
  /\ (forall buf w,
        sharedBus w = false ->
        trace (readDataSync a buf n w)
        = trace w ++ flat_map (page_read_events (cs w) buf) (chunks a 0 n))
  /\ (forall polls buf w,
        writeDataSync polls a buf n w = write_pages polls buf (chunks a 0 n) w)
  /\ (forall polls buf w,
        sharedBus w = false -> responsive polls (chip w) ->
        exists w', writeDataSync polls a buf n w = Ret tt w')
  /\ exact_cover a 0 n (chunks a 0 n)
  /\ (a + n <= size_max ->
      Forall (fun x => fst (fst x) = a + snd (fst x)) (chunks a 0 n))
  /\ Forall (chunk_ok n) (chunks a 0 n)
  /\ Z.of_nat (length (chunks a 0 n)) = pages_met a n
  /\ (forall lens,
        page_split a lens -> fold_right Z.add 0 lens = n ->
        pages_met a n <= Z.of_nat (length lens)).
Proof.
  intros Ha Hn.
  assert (Hw : forall polls buf w,
            writeDataSync polls a buf n w
            = write_pages polls buf (chunks a 0 n) w).
  { intros polls buf w.
    apply (writeDataSync_chunks a 0 n polls buf w). lia. }
  assert (Hrd : forall buf w,
            readDataSync a buf n w = read_pages buf (chunks a 0 n) w).
  { intros buf w. rewrite <- (readDataSync_chunks a 0 n buf w).
    rewrite Z.add_0_r. reflexivity. }
  split; [|split; [|split; [|split; [|split; [|split; [|split; [|split]]]]]]].
  - exact Hrd.
  - intros buf w Hs. rewrite Hrd, read_pages_after by assumption. reflexivity.
  - exact Hw.
  - intros polls buf w Hs Hr. rewrite Hw.
    destruct (write_pages_responsive polls buf (chunks a 0 n) w Hs Hr)
      as (evs & k & ->).
    eexists. reflexivity.
  - apply (chunks_cover a a 0 n Hn).
    rewrite Z.add_0_r, wrap_small by assumption. reflexivity.
  - intros Hend. apply chunks_linear; lia.
  - apply (chunks_ok a 0 n Hn).
  - apply chunks_length. exact Hn.
  - intros lens Hs Hsum. apply page_split_lower_bound; assumption.
Qed.

Lemma multi_page_decomposition_witness :
  chunks 250 0 300 = [(250, 0, 6); (256, 6, 256); (512, 262, 38)]
  /\ Z.of_nat (length (chunks 250 0 300)) = pages_met 250 300
  /\ (forall w, readDataSync 250 0 300 w
                = readPageSync 512 262 38
                    (readPageSync 256 6 256 (readPageSync 250 0 6 w)))
  /\ exists w',
       writeDataSync 3 250 (repeat 0xAB 300) 300
                     (begin (SpiFlash_new SPI 5 idle_chip)) = Ret tt w'.
Proof.
  assert (Hc : chunks 250 0 300 = [(250, 0, 6); (256, 6, 256); (512, 262, 38)])
    by reflexivity.
  destruct (multi_page_decomposition 250 300)
    as (Hread & _ & _ & Hret & _ & _ & _ & Hlen & _).
  - unfold size_max, size_bits. lia.
  - unfold size_max, size_bits. lia.
  - split; [exact Hc|]. split; [exact Hlen|]. split.
    + intros w. rewrite Hread, Hc. reflexivity.
    + apply Hret; [reflexivity|].
      intros i. exists 0%nat. split; [lia|].
      split; [intros j Hj; lia | reflexivity].
Defined.

(** ** The bus stays dedicated *)

Lemma extends_refl w : extends w w.
Proof.
  repeat (split; [reflexivity|]). exists []. rewrite app_nil_r. split; reflexivity.
Qed.

Lemma extends_trans w1 w2 w3 : extends w1 w2 -> extends w2 w3 -> extends w1 w3.
Proof.
  intros (Hs1 & Hc1 & Hb1 & Hx1 & e1 & Ht1 & Hq1)
         (Hs2 & Hc2 & Hb2 & Hx2 & e2 & Ht2 & Hq2).
  split; [congruence|]. split; [congruence|]. split; [congruence|].
  split; [congruence|].
  exists (e1 ++ e2). split.
  - rewrite Ht2, Ht1, app_assoc. reflexivity.
  - rewrite forallb_app, Hq1, Hq2. reflexivity.
Qed.

Lemma extends_after evs n w :
  forallb config_free evs = true -> extends w (after evs n w).
Proof.
  intros H. repeat (split; [reflexivity|]). exists evs. split; [reflexivity | exact H].
Qed.

Lemma extends_set_pending p fn param w : extends w (set_pending p fn param w).
Proof.
  repeat (split; [reflexivity|]). exists []. simpl. rewrite app_nil_r.
  split; reflexivity.
Qed.

Lemma quiet_ret {A} (a : A) : quiet (ret a).
Proof. intros w _. apply extends_refl. Qed.

Lemma quiet_bind {A B} (m : M A) (k : A -> M B) :
  quiet m -> (forall a, quiet (k a)) -> quiet (bind m k).
Proof.
  intros Hm Hk w Hs. unfold bind. specialize (Hm w Hs).
  destruct (m w) as [a w' | w']; simpl in Hm; [|exact Hm].
  apply (extends_trans _ _ _ Hm). apply Hk.
  destruct Hm as (_ & _ & Hb & _). congruence.
Qed.

Lemma quiet_run (f : world -> world) :
  (forall w, sharedBus w = false -> extends w (f w)) -> quiet (run f).
Proof. intros H w Hs. apply H. exact Hs. Qed.

Lemma quiet_call {A} (f : world -> A * world) :
  (forall w, sharedBus w = false -> extends w (snd (f w))) -> quiet (call f).
Proof.
  intros H w Hs. unfold call. specialize (H w Hs).
  destruct (f w) as [a w']. exact H.
Qed.

Lemma jedecIdRead_after w :
  sharedBus w = false ->
  snd (jedecIdRead w)
  = after [EvDigitalWrite (cs w) LOW;
           EvTransfer SPI (Some [Some 0x9f; None; None; None]) (Some RxLocal) 4
                      false;
           EvDigitalWrite (cs w) HIGH] 1 w.
Proof.
  intros H. unfold jedecIdRead, SPI_transfer.
  rewrite beginTransaction_after by assumption. simpl.
  rewrite count_transfer_after. to_after. reflexivity.
Qed.

Lemma isValidChip_extends w :
  sharedBus w = false -> extends w (snd (isValidChip w)).
Proof.
  intros H. unfold isValidChip.
  pose proof (jedecIdRead_after w H) as Hj.
  destruct (jedecIdRead w) as [[[m d1] d2] w']. simpl in *. subst w'.
  to_after. apply extends_after. reflexivity.
Qed.

(** Discharging [extends w (f w)] for a straight-line operation once it is
    written with [after]. *)
Ltac quiet_after := intros; simpl; apply extends_after; reflexivity.

Lemma quiet_step (f : world -> world) evs n :
  (forall w, sharedBus w = false -> f w = after (evs w) n w) ->
  (forall w, forallb config_free (evs w) = true) ->
  quiet (run f).
Proof.
  intros Hf He. apply quiet_run. intros w Hs. rewrite Hf by assumption.
  apply extends_after. apply He.
Qed.

Lemma quiet_beginTransaction : quiet (run beginTransaction).
Proof.
  apply (quiet_step _ (fun w => [EvDigitalWrite (cs w) LOW]) 0).
  - apply beginTransaction_after.
  - reflexivity.
Qed.

Lemma quiet_endTransaction : quiet (run endTransaction).
Proof.
  apply (quiet_step _ (fun w => [EvDigitalWrite (cs w) HIGH]) 0).
  - intros w _. apply endTransaction_after.
  - reflexivity.
Qed.

Lemma quiet_transfer tx rx len completion :
  quiet (run (fun w => snd (SPI_transfer tx rx len completion w))).
Proof.
  apply (quiet_step _ (fun _ => [EvTransfer SPI tx rx len completion]) 1).
  - intros w _. apply SPI_transfer_after.
  - reflexivity.
Qed.

Lemma quiet_writeEnable : quiet (run writeEnable).
Proof.
  apply (quiet_step _ (fun w => write_enable (cs w)) 1).
  - apply writeEnable_after.
  - reflexivity.
Qed.

Lemma quiet_wait polls : quiet (waitForWriteComplete polls).
Proof.
  induction polls as [|polls IH].
  - intros w _. apply extends_refl.
  - simpl. apply quiet_bind.
    + apply quiet_call. intros w Hs.
      rewrite isWriteInProgress_after by assumption. quiet_after.
    + intros [|]; [|apply quiet_ret].
      apply quiet_bind; [|intros _; exact IH].
      apply (quiet_step _ (fun _ => [EvDelay 1]) 0); [|reflexivity].
      intros w _. apply emit_after.
Qed.

Lemma quiet_writePageCommon addr buf bufLen completion :
  quiet (run (writePageCommon addr buf bufLen completion)).
Proof.
  apply (quiet_step _
    (fun w => write_enable (cs w)
              ++ program_command (cs w) addr buf bufLen completion) 3).
  - intros w Hs. apply writePageCommon_after. exact Hs.
  - reflexivity.
Qed.

Lemma quiet_readPageSync addr buf bufLen :
  quiet (run (readPageSync addr buf bufLen)).
Proof.
  apply (quiet_step _
    (fun w => read_command (cs w) addr buf bufLen false
              ++ [EvDigitalWrite (cs w) HIGH]) 2).
  - intros w Hs. apply readPageSync_after. exact Hs.
  - reflexivity.
Qed.

Create HintDb quiet.
#[local] Hint Resolve quiet_ret quiet_beginTransaction quiet_endTransaction
  quiet_transfer quiet_writeEnable quiet_wait quiet_writePageCommon
  quiet_readPageSync : quiet.

(** An operation that is a chain of quiet steps. *)
Ltac quiet_chain :=
  repeat (apply quiet_bind; [|intros _]); auto with quiet.

Lemma quiet_writePageSync polls addr buf bufLen :
  quiet (writePageSync polls addr buf bufLen).
Proof. unfold writePageSync. quiet_chain. Qed.

(** Writing the statics is no bus traffic. *)
Lemma quiet_statics (f : world -> world) :
  (forall w, exists p fn param,
     f w = set_pending p fn param w) ->
  quiet (run f).
Proof.
  intros H. apply quiet_run. intros w _.
  destruct (H w) as (p & fn & param & ->). apply extends_set_pending.
Qed.

Lemma quiet_set_spiFlash p : quiet (run (set_spiFlash p)).
Proof.
  apply quiet_statics. intros w.
  exists p, (_callback w), (_callbackParam w). reflexivity.
Qed.

Lemma quiet_set_callback fn : quiet (run (set_callback fn)).
Proof.
  apply quiet_statics. intros w.
  exists (_spiFlash w), fn, (_callbackParam w). reflexivity.
Qed.

Lemma quiet_set_callbackParam param : quiet (run (set_callbackParam param)).
Proof.
  apply quiet_statics. intros w.
  exists (_spiFlash w), (_callback w), param. reflexivity.
Qed.

#[local] Hint Resolve quiet_set_spiFlash quiet_set_callback
  quiet_set_callbackParam quiet_writePageSync : quiet.

Lemma quiet_erase polls (tx : list txbyte) len :
  quiet (waitForWriteComplete polls ;;
         run writeEnable ;;
         run beginTransaction ;;
         run (fun w => snd (SPI_transfer (Some tx) None len false w)) ;;
         run endTransaction ;;
         waitForWriteComplete polls).
Proof. quiet_chain. Qed.

Lemma quiet_read_pages buf l : quiet (run (read_pages buf l)).
Proof.
  apply quiet_run. induction l as [|[[a o] c] l IH]; intros w Hs.
  - apply extends_refl.
  - unfold read_pages in *. simpl.
    pose proof (quiet_readPageSync a (buf + o) c w Hs) as H1. simpl in H1.
    apply (extends_trans _ _ _ H1). apply IH.
    destruct H1 as (_ & _ & Hb & _). congruence.
Qed.

Lemma quiet_write_pages polls buf l : quiet (write_pages polls buf l).
Proof.
  induction l as [|[[a o] c] l IH]; simpl.
  - apply quiet_ret.
  - apply quiet_bind; [apply quiet_writePageSync | intros _; exact IH].
Qed.

Lemma quiet_exec polls c : c <> Begin -> quiet (exec polls c).
Proof.
  intros Hc. destruct c; try congruence; simpl.
  - apply quiet_bind; [|intros _; apply quiet_ret].
    apply quiet_call. apply isValidChip_extends.
  - apply quiet_bind; [|intros _; apply quiet_ret].
    apply quiet_call. intros w Hs. rewrite jedecIdRead_after by assumption.
    quiet_after.
  - apply quiet_bind; [|intros _; apply quiet_ret].
    apply quiet_call. intros w Hs. rewrite readStatus_after by assumption.
    quiet_after.
  - apply quiet_bind; [|intros _; apply quiet_ret].
    apply quiet_call. intros w Hs.
    rewrite isWriteInProgress_after by assumption. quiet_after.
  - apply quiet_wait.
  - unfold writeStatus. quiet_chain.
  - intros w Hs. unfold run.
    pose proof (readDataSync_chunks addr 0 bufLen buf w) as H.
    rewrite Z.add_0_r in H. rewrite H. apply quiet_read_pages. exact Hs.
  - apply quiet_readPageSync.
  - intros w Hs. unfold run. rewrite readPageAsync_after by assumption.
    apply (extends_trans _ (set_pending THIS callback param w)).
    + apply extends_set_pending.
    + quiet_after.
  - intros w Hs.
    pose proof (writeDataSync_chunks addr 0 bufLen polls buf w) as H.
    simpl in H. rewrite H by lia.
    apply quiet_write_pages. exact Hs.
  - apply quiet_writePageSync.
  - unfold writePageAsync.
    quiet_chain.
  - apply quiet_erase.
  - apply quiet_erase.
  - apply quiet_erase.
Qed.

(** *** The completion routine and what holds before and after it *)

Lemma run_script_preserves (Inv : world -> Prop) polls :
  (forall c w, Inv w -> Inv (world_of (exec polls c w))) ->
  forall s w, Inv w -> Inv (world_of (run_script polls s w)).
Proof.
  intros Hexec. induction s as [|c next IH]; intros w Hw; [exact Hw|].
  simpl. specialize (Hexec c w Hw).
  destruct (exec polls c w) as [[] w' | w']; [apply IH|]; exact Hexec.
Qed.

(** What every call keeps, the completion routine keeps, if its own steps
    do. *)
Lemma completion_preserves (Inv : world -> Prop) user polls w o :
  (forall c w, Inv w -> Inv (world_of (exec polls c w))) ->
  (forall w, Inv w -> _spiFlash w = THIS ->
     Inv (set_spiFlash NULL (endTransaction w))) ->
  (forall w, Inv w -> _spiFlash w = THIS -> Inv (callback_entry w)) ->
  (forall w fn param, Inv w -> Inv (set_callbackParam param (set_callback fn w))) ->
  Inv w -> _completion user polls w = Some o -> Inv (world_of o).
Proof.
  intros Hexec Hrel Hent Hclr Hw. unfold _completion.
  destruct (_spiFlash w) eqn:Hp; [discriminate|]. simpl.
  destruct (negb (_callback w =? 0)); intros H; inversion H; subst; clear H.
  - unfold bind, run.
    pose proof (run_script_preserves Inv polls Hexec
                  (user (_callback w) (_callbackParam w) (callback_entry w))
                  (callback_entry w) (Hent w Hw Hp)) as Hs.
    change (emit (EvCallback (_callback w) (_callbackParam w))
              (set_spiFlash NULL (endTransaction w))) with (callback_entry w).
    destruct (run_script polls _ (callback_entry w)) as [[] w' | w'];
      simpl in *; [apply Hclr|]; exact Hs.
  - simpl. apply Hrel; assumption.
Qed.

Lemma callback_entry_extends w : extends w (callback_entry w).
Proof.
  repeat (split; [reflexivity|]).
  exists [EvDigitalWrite (cs w) HIGH; EvCallback (_callback w) (_callbackParam w)].
  unfold callback_entry. simpl. rewrite <- app_assoc. split; reflexivity.
Qed.

Lemma release_extends w : extends w (set_spiFlash NULL (endTransaction w)).
Proof.
  repeat (split; [reflexivity|]).
  exists [EvDigitalWrite (cs w) HIGH]. split; reflexivity.
Qed.

Lemma clear_extends w fn param :
  extends w (set_callbackParam param (set_callback fn w)).
Proof.
  repeat (split; [reflexivity|]). exists []. simpl. rewrite app_nil_r.
  split; reflexivity.
Qed.

Lemma config_free_filter (p : event -> bool) evs :
  (forall e, config_free e = true -> p e = false) ->
  forallb config_free evs = true ->
  filter p evs = [].
Proof.
  intros Hp. induction evs as [|e evs IH]; simpl; [reflexivity|].
  intros H. apply andb_prop in H. destruct H as [He Hevs].
  rewrite (Hp e He). apply IH. exact Hevs.
Qed.

Lemma extends_occurrences (p : event -> bool) w w' :
  (forall e, config_free e = true -> p e = false) ->
  extends w w' ->
  occurrences p (trace w') = occurrences p (trace w).
Proof.
  intros Hp (_ & _ & _ & _ & evs & -> & Hq). unfold occurrences.
  rewrite filter_app, (config_free_filter p evs Hp Hq), app_nil_r. reflexivity.
Qed.

Lemma config_free_excludes e :
  config_free e = true ->
  is_spi_begin e = false /\ is_bit_order e = false
  /\ is_clock_speed e = false /\ is_data_mode e = false.
Proof. destruct e; simpl; intros H; try discriminate; repeat split. Qed.

Lemma extends_configured w w' :
  extends w w' -> configured_in_begin_only w -> configured_in_begin_only w'.
Proof.
  intros He (Hs & Hb & Hc & Hm).
  pose proof He as (_ & _ & Hsb & _).
  split; [congruence|].
  rewrite !(extends_occurrences _ w w') by
    (try exact He; intros e Hq; apply config_free_excludes in Hq; tauto).
  auto.
Qed.

Lemma begin_trace w :
  sharedBus w = false ->
  begin w = after [EvSpiBegin (spi w) (cs w);
                   EvSetBitOrder (spi w) MSBFIRST;
                   EvSetClockSpeed (spi w) 30 MHZ;
                   EvSetDataMode (spi w) SPI_MODE0] 0 w.
Proof.
  intros Hs. unfold begin. simpl. rewrite Hs. simpl.
  unfold setSpiSettings. to_after. reflexivity.
Qed.

Lemma begin_configured w :
  configured_in_begin_only w -> configured_in_begin_only (begin w).
Proof.
  intros (Hs & Hb & Hc & Hm). rewrite begin_trace by assumption.
  split; [exact Hs|]. unfold occurrences, after in *; simpl.
  rewrite !filter_app, !length_app. simpl. lia.
Qed.

Lemma exec_configured polls c w :
  configured_in_begin_only w ->
  configured_in_begin_only (world_of (exec polls c w)).
Proof.
  intros Hw.
  destruct c;
    try (apply (extends_configured w); [|exact Hw];
         apply quiet_exec; [discriminate | apply Hw]).
  apply begin_configured. exact Hw.
Qed.

Lemma completion_configured user polls w o :
  configured_in_begin_only w ->
  _completion user polls w = Some o ->
  configured_in_begin_only (world_of o).
Proof.
  apply completion_preserves.
  - intros c w0. apply exec_configured.
  - intros w0 H0 _. apply (extends_configured w0); [apply release_extends | exact H0].
  - intros w0 H0 _.
    apply (extends_configured w0); [apply callback_entry_extends | exact H0].
  - intros w0 fn param H0.
    apply (extends_configured w0); [apply clear_extends | exact H0].
Qed.

Lemma reachable_configured w : reachable w -> configured_in_begin_only w.
Proof.
  induction 1 as [bus pin c | w polls c Hr IH | w Hr IH Hp Hcb
                  | user polls w o Hr IH Hc].
  - repeat split.
  - apply exec_configured. exact IH.
  - apply (extends_configured w); [apply callback_entry_extends | exact IH].
  - apply (completion_configured user polls w o IH Hc).
Qed.

(** C9. [sharedBus] is [false] when the object is constructed and no
    operation of the interface (nor the completion routine, whatever the
    callback calls) changes it, so in every world a program can reach,
    inside a callback too: [beginTransaction] only drives
    chip-select low, with no bus setting and no delay; [begin] applies bit
    order, clock speed and data mode once each; and the trace holds exactly
    one of each setting per call of [begin], so nothing else applies them. *)
Theorem shared_bus_branch_unreachable (w : world) :
  reachable w ->
  sharedBus w = false
  /\ (forall polls c, sharedBus (world_of (exec polls c w)) = false)
  /\ (forall user polls o,
        _completion user polls w = Some o -> sharedBus (world_of o) = false)
  /\ beginTransaction w = emit (EvDigitalWrite (cs w) LOW) w
  /\ trace (begin w)
     = trace w ++ [EvSpiBegin (spi w) (cs w);
                   EvSetBitOrder (spi w) MSBFIRST;
                   EvSetClockSpeed (spi w) 30 MHZ;
                   EvSetDataMode (spi w) SPI_MODE0]
  /\ occurrences is_bit_order (trace w) = occurrences is_spi_begin (trace w)
  /\ occurrences is_clock_speed (trace w) = occurrences is_spi_begin (trace w)
  /\ occurrences is_data_mode (trace w) = occurrences is_spi_begin (trace w).
Proof.
  intros Hr. destruct (reachable_configured w Hr) as (Hs & Hb & Hc & Hm).
  split; [exact Hs|]. split; [|split; [|split; [|split]]].
  - intros polls c.
    apply (reachable_configured _ (reach_call w polls c Hr)).
  - intros user polls o Ho.
    apply (reachable_configured _ (reach_completion user polls w o Hr Ho)).
  - unfold beginTransaction. rewrite Hs. reflexivity.
  - rewrite begin_trace by assumption. reflexivity.
  - auto.
Qed.

Lemma shared_bus_branch_unreachable_witness :
  let w := world_of (exec 3 (WritePageSync 0x100 [1; 2] 2)
                       (begin (SpiFlash_new SPI1 5 busy_twice))) in
  sharedBus w = false
  /\ occurrences is_bit_order (trace w) = 1%nat
  /\ beginTransaction w = emit (EvDigitalWrite 5 LOW) w.
Proof.
  intros w.
  destruct (shared_bus_branch_unreachable w) as (Hs & _ & _ & Hb & _ & Ho & _).
  - apply reach_call. apply (reach_call _ 0 Begin). apply reach_new.
  - split; [exact Hs|]. split; [|exact Hb].
    rewrite Ho. reflexivity.
Defined.

(** * Further properties *)

(** ** The status register *)

Lemma readStatus_byte w : fst (readStatus w) = rxbyte w 1.
Proof.
  unfold readStatus, SPI_transfer; simpl. unfold rxbyte.
  destruct (beginTransaction_platform w) as [-> ->]. reflexivity.
Qed.

Lemma land_wip x : negb (Z.land x STATUS_WIP =? 0) = Z.odd x.
Proof.
  unfold STATUS_WIP. change 1 with (Z.ones 1).
  rewrite Z.land_ones by lia. change (2 ^ 1) with 2.
  rewrite Zmod_odd. destruct (Z.odd x); reflexivity.
Qed.

(** X1. [readStatus] returns the second byte of the response, a value
    below 256, and [isWriteInProgress] looks at bit 0 of it alone: it is
    [true] exactly when that bit is set (the byte is odd), whatever the
    write-enable latch (0x02), the write-disable bit (0x80) and the other
    bits are. *)
Theorem isWriteInProgress_bit0 (w : world) :
  fst (readStatus w) = rxbyte w 1
  /\ 0 <= fst (readStatus w) < 256
  /\ fst (isWriteInProgress w) = Z.testbit (fst (readStatus w)) 0
  /\ fst (isWriteInProgress w) = Z.odd (rxbyte w 1)
  /\ (forall w2, Z.odd (rxbyte w2 1) = Z.odd (rxbyte w 1) ->
        fst (isWriteInProgress w2) = fst (isWriteInProgress w)).
Proof.
  assert (Hr : 0 <= rxbyte w 1 < 256) by (apply Z.mod_pos_bound; lia).
  assert (Hw : forall v, fst (isWriteInProgress v) = Z.odd (rxbyte v 1)).
  { intros v. unfold isWriteInProgress. pose proof (readStatus_byte v) as H.
    destruct (readStatus v) as [s v']. simpl in *. subst s. apply land_wip. }
  split; [apply readStatus_byte|]. split; [rewrite readStatus_byte; exact Hr|].
  split; [rewrite Hw, readStatus_byte, Z.bit0_odd; reflexivity|].
  split; [apply Hw|].
  intros w2 H. rewrite !Hw. exact H.
Qed.

(** ** What a returned wait tells *)

Lemma settles_cons c n k :
  wip c n = true -> settles c (n + 1) k -> settles c n (S k).
Proof.
  intros Hb [Hk Hi]. split.
  - intros [|j] Hj.
    + rewrite Nat.add_0_r. exact Hb.
    + replace (n + S j)%nat with (n + 1 + j)%nat by lia. apply Hk. lia.
  - replace (n + S k)%nat with (n + 1 + k)%nat by lia. exact Hi.
Qed.

Lemma wait_inversion polls : forall w w',
  sharedBus w = false ->
  waitForWriteComplete polls w = Ret tt w' ->
  exists k, (k < polls)%nat /\ settles (chip w) (xfers w) k
            /\ w' = after (wait_events (cs w) k) (S k) w.
Proof.
  induction polls as [|polls IH]; intros w w' Hs H; [discriminate|].
  destruct (wip (chip w) (xfers w)) eqn:Hw.
  - rewrite wait_step_busy in H by assumption.
    apply IH in H; [|exact Hs].
    destruct H as (k & Hk & Hset & ->). exists (S k).
    split; [lia|]. split.
    + apply settles_cons; [exact Hw | exact Hset].
    + rewrite after_after. reflexivity.
  - rewrite wait_step_idle in H by assumption. inversion H; subst.
    exists 0%nat. split; [lia|]. split; [|reflexivity].
    split; [intros j Hj; lia | rewrite Nat.add_0_r; exact Hw].
Qed.

Lemma wait_polling_inversion polls : forall w w',
  sharedBus w = false ->
  waitForWriteComplete polls w = Polling w' ->
  (forall j, (j < polls)%nat -> wip (chip w) (xfers w + j) = true)
  /\ w' = after (busy_polls (cs w) polls) polls w.
Proof.
  induction polls as [|polls IH]; intros w w' Hs H.
  - inversion H; subst. split; [intros j Hj; lia|].
    simpl. rewrite after_nil. reflexivity.
  - destruct (wip (chip w) (xfers w)) eqn:Hw.
    + rewrite wait_step_busy in H by assumption.
      apply IH in H; [|exact Hs]. destruct H as (Hb & ->). split.
      * intros [|j] Hj; [rewrite Nat.add_0_r; exact Hw|].
        replace (xfers w + S j)%nat with (xfers w + 1 + j)%nat by lia.
        apply Hb. lia.
      * rewrite after_after. reflexivity.
    + rewrite wait_step_idle in H by assumption. discriminate.
Qed.

(** X2. Whatever the chip answers, [waitForWriteComplete] returns only after
    a status read with the write-in-progress bit clear: if it returns, the
    chip reported busy at every read before the last one and idle at the
    last, the driver slept 1 ms after each busy read, and nothing else
    happened; if it is still polling, every read so far reported busy. *)
Theorem waitForWriteComplete_returns_only_idle (polls : nat) (w w' : world) :
  sharedBus w = false ->
  (waitForWriteComplete polls w = Ret tt w' ->
   exists k, (k < polls)%nat
      /\ (forall j, (j < k)%nat -> wip (chip w) (xfers w + j) = true)
      /\ wip (chip w) (xfers w + k) = false
      /\ w' = after (wait_events (cs w) k) (S k) w
      /\ occurrences is_delay (wait_events (cs w) k) = k
      /\ wip (chip w') (xfers w' - 1) = false)
  /\ (waitForWriteComplete polls w = Polling w' ->
      (forall j, (j < polls)%nat -> wip (chip w) (xfers w + j) = true)
      /\ w' = after (busy_polls (cs w) polls) polls w).
Proof.
  intros Hs. split; intros H.
  - destruct (wait_inversion polls w w' Hs H) as (k & Hk & [Hb Hi] & ->).
    exists k. repeat (split; [assumption || reflexivity|]). split.
    + unfold wait_events, occurrences. rewrite filter_app, length_app. simpl.
      clear. induction k as [|k IH]; simpl; lia.
    + simpl. replace (xfers w + S k - 1)%nat with (xfers w + k)%nat by lia.
      exact Hi.
  - apply wait_polling_inversion; assumption.
Qed.

Lemma waitForWriteComplete_returns_only_idle_witness :
  let w := begin (SpiFlash_new SPI 5 busy_twice) in
  exists k,
    wip (chip w) (xfers w + k) = false
    /\ waitForWriteComplete 5 w = Ret tt (after (wait_events (cs w) k) (S k) w)
    /\ occurrences is_delay (wait_events (cs w) k) = k.
Proof.
  intros w.
  destruct (waitForWriteComplete_returns_only_idle 5 w
              (after (wait_events 5 2) 3 w) eq_refl) as [H _].
  assert (E : waitForWriteComplete 5 w = Ret tt (after (wait_events 5 2) 3 w))
    by (vm_compute; reflexivity).
  destruct (H E) as (k & Hk & Hb & Hi & Hw & Hd & _).
  exists k. split; [exact Hi|]. split; [|exact Hd].
  rewrite E, Hw. reflexivity.
Defined.

(** ** Erasing *)

(** X3. On a dedicated bus and a chip that ends both waits, each erase does,
    in this order: poll the status until no write is in progress, send
    write-enable, send its command in one chip-select bracket, poll again
    until the erase is over.  The command of [sectorErase] is opcode 0xD7
    and of [blockErase] opcode 0xD8, each followed by the low 24 bits of the
    address exactly as passed (not rounded to a sector or block); the
    command of [chipErase] is the single byte 0xC7. *)
Theorem erase_sequences (polls : nat) (addr : Z) (w : world) (k1 k2 : nat) :
  sharedBus w = false ->
  settles (chip w) (xfers w) k1 ->
  settles (chip w) (xfers w + k1 + 3) k2 ->
  (k1 < polls)%nat -> (k2 < polls)%nat ->
  let erase tx :=
    Ret tt (after (wait_events (cs w) k1
                     ++ write_enable (cs w)
                     ++ [EvDigitalWrite (cs w) LOW;
                         EvTransfer SPI (Some tx) None (Z.of_nat (length tx)) false;
                         EvDigitalWrite (cs w) HIGH]
                     ++ wait_events (cs w) k2)
                  (k1 + k2 + 4) w) in
  sectorErase polls addr w
  = erase [Some 0xD7; Some (Z.shiftr addr 16 mod 256);
           Some (Z.shiftr addr 8 mod 256); Some (addr mod 256)]
  /\ blockErase polls addr w
     = erase [Some 0xD8; Some (Z.shiftr addr 16 mod 256);
              Some (Z.shiftr addr 8 mod 256); Some (addr mod 256)]
  /\ chipErase polls w = erase [Some 0xC7].
Proof.
  intros Hs H1 H2 Hk1 Hk2 erase. split; [|split].
  - apply sectorErase_write_enable_first; assumption.
  - apply blockErase_write_enable_first; assumption.
  - apply chipErase_write_enable_first; assumption.
Qed.

Lemma erase_sequences_witness :
  let w := begin (SpiFlash_new SPI 5 busy_twice) in
  sectorErase 3 0x012345 w
  = Ret tt (after (wait_events 5 2 ++ write_enable 5
                     ++ [EvDigitalWrite 5 LOW;
                         EvTransfer SPI
                           (Some [Some 0xD7; Some 0x01; Some 0x23; Some 0x45])
                           None 4 false;
                         EvDigitalWrite 5 HIGH]
                     ++ wait_events 5 0) 6 w).
Proof.
  intros w.
  destruct (erase_sequences 3 0x012345 w 2 0) as (H & _ & _).
  - reflexivity.
  - split; [intros [|[|j]] Hj; try reflexivity; simpl in Hj; lia | reflexivity].
  - split; [intros j Hj; lia | reflexivity].
  - lia.
  - lia.
  - rewrite H. reflexivity.
Defined.

(** ** Chip-select and the pending record through the synchronous calls *)

Lemma triple_bind {A B} (m : M A) (k : A -> M B) P Q Q' R :
  triple P m Q R -> (forall a, triple Q (k a) Q' R) -> triple P (bind m k) Q' R.
Proof.
  intros Hm Hk w Hw. unfold bind. specialize (Hm w Hw).
  destruct (m w) as [a w1 | w1]; [apply Hk; exact Hm | exact Hm].
Qed.

Lemma triple_weaken {A} (m : M A) P Q Q' R :
  triple P m Q R -> (forall w, Q w -> Q' w) -> triple P m Q' R.
Proof.
  intros Hm HQ w Hw. specialize (Hm w Hw).
  destruct (m w); [apply HQ; exact Hm | exact Hm].
Qed.

Lemma triple_ret {A} (a : A) P R : triple P (ret a) P R.
Proof. intros w Hw. exact Hw. Qed.

Lemma occurrences_app p t1 t2 :
  occurrences p (t1 ++ t2) = (occurrences p t1 + occurrences p t2)%nat.
Proof. unfold occurrences. rewrite filter_app, length_app. reflexivity. Qed.

Lemma st_after r b nc na w evs n b' :
  st r b nc na w ->
  fold_left cs_step evs b = b' ->
  occurrences is_callback evs = 0%nat ->
  occurrences is_async_transfer evs = 0%nat ->
  st r b' nc na (after evs n w).
Proof.
  intros (Hs & Hr & Hc & Hnc & Hna) Hb H1 H2.
  split; [exact Hs|]. split; [exact Hr|]. simpl.
  unfold cs_active in *. rewrite fold_left_app, Hc, !occurrences_app.
  rewrite Hnc, Hna, H1, H2, !Nat.add_0_r. auto.
Qed.

(** A step written with [after]. *)
Lemma triple_step (f : world -> world) evs n r b b' nc na R :
  (forall w, sharedBus w = false -> f w = after (evs w) n w) ->
  (forall w, fold_left cs_step (evs w) b = b'
             /\ occurrences is_callback (evs w) = 0%nat
             /\ occurrences is_async_transfer (evs w) = 0%nat) ->
  triple (st r b nc na) (run f) (st r b' nc na) R.
Proof.
  intros Hf He w Hw. unfold run. rewrite Hf by apply Hw.
  destruct (He w) as (H1 & H2 & H3). apply (st_after r b nc na); assumption.
Qed.

Section Steps.
Variables (r : ptr * Z * Z) (b : bool) (nc na : nat) (R : world -> Prop).

Lemma step_beginTransaction :
  triple (st r b nc na) (run beginTransaction) (st r true nc na) R.
Proof.
  apply (triple_step _ (fun w => [EvDigitalWrite (cs w) LOW]) 0).
  - apply beginTransaction_after.
  - intros w. repeat split.
Qed.

Lemma step_endTransaction :
  triple (st r b nc na) (run endTransaction) (st r false nc na) R.
Proof.
  apply (triple_step _ (fun w => [EvDigitalWrite (cs w) HIGH]) 0).
  - intros w _. apply endTransaction_after.
  - intros w. repeat split.
Qed.

Lemma step_transfer tx rx len :
  triple (st r b nc na)
         (run (fun w => snd (SPI_transfer tx rx len false w)))
         (st r b nc na) R.
Proof.
  apply (triple_step _ (fun _ => [EvTransfer SPI tx rx len false]) 1).
  - intros w _. apply SPI_transfer_after.
  - intros w. repeat split.
Qed.

Lemma step_delay ms : triple (st r b nc na) (run (delay ms)) (st r b nc na) R.
Proof.
  apply (triple_step _ (fun _ => [EvDelay ms]) 0).
  - intros w _. apply emit_after.
  - intros w. repeat split.
Qed.

Lemma step_writeEnable :
  triple (st r b nc na) (run writeEnable) (st r false nc na) R.
Proof.
  apply (triple_step _ (fun w => write_enable (cs w)) 1).
  - apply writeEnable_after.
  - intros w. repeat split.
Qed.

Lemma step_writePageCommon addr buf bufLen :
  triple (st r b nc na) (run (writePageCommon addr buf bufLen false))
         (st r true nc na) R.
Proof.
  apply (triple_step _
    (fun w => write_enable (cs w)
              ++ program_command (cs w) addr buf bufLen false) 3).
  - intros w Hs. apply writePageCommon_after. exact Hs.
  - intros w. repeat split.
Qed.

Lemma step_readPageSync addr buf bufLen :
  triple (st r b nc na) (run (readPageSync addr buf bufLen))
         (st r false nc na) R.
Proof.
  apply (triple_step _
    (fun w => read_command (cs w) addr buf bufLen false
              ++ [EvDigitalWrite (cs w) HIGH]) 2).
  - intros w Hs. apply readPageSync_after. exact Hs.
  - intros w. repeat split.
Qed.

Lemma step_begin : triple (st r b nc na) (run begin) (st r b nc na) R.
Proof.
  apply (triple_step _
    (fun w => [EvSpiBegin (spi w) (cs w); EvSetBitOrder (spi w) MSBFIRST;
               EvSetClockSpeed (spi w) 30 MHZ;
               EvSetDataMode (spi w) SPI_MODE0]) 0).
  - apply begin_trace.
  - intros w. repeat split.
Qed.

(** A query: one chip-select bracket, whatever is returned. *)
Lemma step_query {A} (f : world -> A * world) evs n :
  (forall w, sharedBus w = false -> snd (f w) = after (evs w) n w) ->
  (forall w, fold_left cs_step (evs w) b = false
             /\ occurrences is_callback (evs w) = 0%nat
             /\ occurrences is_async_transfer (evs w) = 0%nat) ->
  triple (st r b nc na) (call f) (st r false nc na) R.
Proof.
  intros Hf He w Hw. unfold call. specialize (Hf w ltac:(apply Hw)).
  destruct (f w) as [a w']. simpl in Hf. subst w'.
  destruct (He w) as (H1 & H2 & H3). apply (st_after r b nc na); assumption.
Qed.

Lemma step_isWriteInProgress :
  triple (st r b nc na) (call isWriteInProgress) (st r false nc na) R.
Proof.
  apply (step_query _ (fun w => status_read (cs w)) 1).
  - intros w Hs. rewrite isWriteInProgress_after by assumption. reflexivity.
  - intros w. repeat split.
Qed.

Lemma step_readStatus :
  triple (st r b nc na) (call readStatus) (st r false nc na) R.
Proof.
  apply (step_query _ (fun w => status_read (cs w)) 1).
  - intros w Hs. rewrite readStatus_after by assumption. reflexivity.
  - intros w. repeat split.
Qed.

Lemma step_jedecIdRead :
  triple (st r b nc na) (call jedecIdRead) (st r false nc na) R.
Proof.
  apply (step_query _
    (fun w => [EvDigitalWrite (cs w) LOW;
               EvTransfer SPI (Some [Some 0x9f; None; None; None])
                          (Some RxLocal) 4 false;
               EvDigitalWrite (cs w) HIGH]) 1).
  - apply jedecIdRead_after.
  - intros w. repeat split.
Qed.

Lemma step_isValidChip :
  triple (st r b nc na) (call isValidChip) (st r false nc na) R.
Proof.
  intros w Hw. unfold call, isValidChip.
  pose proof (jedecIdRead_after w ltac:(apply Hw)) as Hj.
  destruct (jedecIdRead w) as [[[m d1] d2] w']. simpl in Hj. subst w'.
  rewrite emit_after, after_after.
  apply (st_after r b nc na); [exact Hw | | |]; reflexivity.
Qed.
End Steps.

(** A wait entered with chip-select at [b] returns with it inactive; while
    it polls, chip-select is inactive, or as on entry before the first
    read. *)
Lemma step_wait r nc na (R : world -> Prop) polls : forall b,
  (forall w, st r false nc na w -> R w) ->
  (forall w, st r b nc na w -> R w) ->
  triple (st r b nc na) (waitForWriteComplete polls) (st r false nc na) R.
Proof.
  induction polls as [|polls IH]; intros b Hf Hb.
  - intros w Hw. apply Hb. exact Hw.
  - simpl. eapply triple_bind; [apply step_isWriteInProgress|].
    intros [|]; [|apply triple_ret].
    eapply triple_bind; [apply step_delay | intros _].
    apply IH; assumption.
Qed.

Create HintDb steps.
#[local] Hint Resolve step_beginTransaction step_endTransaction step_transfer
  step_delay step_writeEnable step_writePageCommon step_readPageSync
  step_begin step_isWriteInProgress step_readStatus step_jedecIdRead
  step_isValidChip : steps.

(** A chain of steps that returns with chip-select inactive. *)
Ltac sync_chain :=
  repeat (eapply triple_bind;
          [ first [ apply step_wait; intros ? ?; auto | auto with steps ]
          | intros _ ]);
  first [ apply step_wait; intros ? ?; auto
        | eapply triple_weaken;
          [ first [ apply triple_ret | auto with steps ]
          | intros ? ?; auto ] ].

Lemma sync_writePageSync r b nc na polls addr buf bufLen :
  triple (st r b nc na) (writePageSync polls addr buf bufLen)
         (st r false nc na)
         (fun w => st r false nc na w \/ st r b nc na w).
Proof. unfold writePageSync. sync_chain. Qed.

Lemma sync_read_pages r nc na buf l : forall b w,
  st r b nc na w ->
  st r false nc na (read_pages buf l w) \/ st r b nc na (read_pages buf l w).
Proof.
  induction l as [|[[a o] c] l IH]; intros b w Hw.
  - right. exact Hw.
  - left. unfold read_pages in *. simpl.
    pose proof (step_readPageSync r b nc na (fun _ => True) a (buf + o) c w Hw)
      as H1.
    simpl in H1. destruct (IH false _ H1); assumption.
Qed.

Lemma sync_write_pages r nc na polls buf l : forall b,
  triple (st r b nc na) (write_pages polls buf l)
         (fun w => st r false nc na w \/ st r b nc na w)
         (fun w => st r false nc na w \/ st r b nc na w).
Proof.
  induction l as [|[[a o] c] l IH]; intros b; simpl.
  - intros w Hw. right. exact Hw.
  - eapply triple_bind; [apply sync_writePageSync | intros _].
    intros w Hw. specialize (IH false w Hw).
    destruct (write_pages polls buf l w); left; destruct IH; assumption.
Qed.

Lemma sync_erase r b nc na polls (tx : list txbyte) len :
  triple (st r b nc na)
         (waitForWriteComplete polls ;;
          run writeEnable ;;
          run beginTransaction ;;
          run (fun w => snd (SPI_transfer (Some tx) None len false w)) ;;
          run endTransaction ;;
          waitForWriteComplete polls)
         (st r false nc na)
         (fun w => st r false nc na w \/ st r b nc na w).
Proof. sync_chain. Qed.

(** Every synchronous call, from any level of chip-select. *)
Lemma sync_exec r b nc na polls c :
  is_async c = false ->
  triple (st r b nc na) (exec polls c)
         (fun w => st r false nc na w \/ st r b nc na w)
         (fun w => st r false nc na w \/ st r b nc na w).
Proof.
  intros Hc. destruct c; try discriminate Hc; simpl.
  - eapply triple_weaken; [apply step_begin | intros ? ?; auto].
  - sync_chain.
  - sync_chain.
  - sync_chain.
  - sync_chain.
  - eapply triple_weaken; [apply step_wait | ]; intros ? ?; auto.
  - unfold writeStatus. sync_chain.
  - intros w Hw. unfold run.
    pose proof (readDataSync_chunks addr 0 bufLen buf w) as H.
    rewrite Z.add_0_r in H. rewrite H. apply sync_read_pages. exact Hw.
  - eapply triple_weaken; [apply step_readPageSync | intros ? ?; auto].
  - intros w Hw.
    pose proof (writeDataSync_chunks addr 0 bufLen polls buf w) as H.
    simpl in H. rewrite H by lia. apply sync_write_pages. exact Hw.
  - eapply triple_weaken; [apply sync_writePageSync | intros ? ?; auto].
  - eapply triple_weaken; [apply sync_erase | intros ? ?; auto].
  - eapply triple_weaken; [apply sync_erase | intros ? ?; auto].
  - eapply triple_weaken; [apply sync_erase | intros ? ?; auto].
Qed.

Lemma st_self w :
  sharedBus w = false ->
  st (record w) (cs_active (trace w)) (occurrences is_callback (trace w))
     (occurrences is_async_transfer (trace w)) w.
Proof. intros Hs. repeat split. exact Hs. Qed.

(** X4. A synchronous call of the interface, returned or still polling,
    leaves the pending-operation record as it found it, calls no callback
    and starts no asynchronous transfer; and if chip-select was inactive
    when it was called, chip-select is inactive again: every transaction
    the call opens, it closes. *)
Theorem synchronous_calls_release_chip_select (polls : nat) (c : api) (w : world) :
  is_async c = false ->
  sharedBus w = false ->
  let w' := world_of (exec polls c w) in
  record w' = record w
  /\ occurrences is_callback (trace w') = occurrences is_callback (trace w)
  /\ occurrences is_async_transfer (trace w')
     = occurrences is_async_transfer (trace w)
  /\ (cs_active (trace w) = false -> cs_active (trace w') = false).
Proof.
  intros Hc Hs w'.
  pose proof (sync_exec _ _ _ _ polls c Hc w (st_self w Hs)) as H.
  assert (H' : st (record w) false (occurrences is_callback (trace w))
                  (occurrences is_async_transfer (trace w)) w'
               \/ st (record w) (cs_active (trace w))
                     (occurrences is_callback (trace w))
                     (occurrences is_async_transfer (trace w)) w').
  { subst w'. destruct (exec polls c w); exact H. }
  destruct H' as [(_ & Hr & Hcs & Hnc & Hna) | (_ & Hr & Hcs & Hnc & Hna)];
    (split; [exact Hr|]); (split; [exact Hnc|]); (split; [exact Hna|]);
    intros Hin; congruence.
Qed.

Lemma synchronous_calls_release_chip_select_witness :
  let w := begin (SpiFlash_new SPI 5 busy_twice) in
  cs_active (trace (world_of (exec 1 (WriteDataSync 250 (repeat 7 10) 10) w)))
  = false.
Proof.
  intros w.
  destruct (synchronous_calls_release_chip_select 1
              (WriteDataSync 250 (repeat 7 10) 10) w eq_refl eq_refl)
    as (_ & _ & _ & H).
  apply H. reflexivity.
Defined.

(** ** Writes and erases return after the chip is idle *)






(** ** The bytes a multi-page write sends *)

Lemma programmed_busy_polls pin k rest :
  programmed (busy_polls pin k ++ rest) = programmed rest.
Proof. induction k as [|k IH]; simpl; [reflexivity | exact IH]. Qed.

Lemma programmed_wait pin k rest :
  programmed (wait_events pin k ++ rest) = programmed rest.
Proof.
  unfold wait_events. rewrite <- app_assoc, programmed_busy_polls. reflexivity.
Qed.

Lemma header_address addr :
  (Z.shiftr addr 16 mod 256) * 65536 + (Z.shiftr addr 8 mod 256) * 256
  + addr mod 256 = addr mod 2 ^ 24.
Proof.
  destruct (shift_bytes addr) as [-> ->].
  change (2 ^ 24) with 16777216. Z.div_mod_to_equations. lia.
Qed.

Lemma programmed_page pin addr buf bufLen k1 k2 rest :
  programmed (wait_events pin k1 ++ write_enable pin
                ++ program_command pin addr buf bufLen false
                ++ [EvDigitalWrite pin HIGH] ++ wait_events pin k2 ++ rest)
  = (addr mod 2 ^ 24, map Some (firstn (Z.to_nat bufLen) buf))
      :: programmed rest.
Proof.
  rewrite programmed_wait.
  unfold write_enable, program_command, header.
  cbn [app programmed Z.eqb Pos.eqb].
  rewrite programmed_wait, header_address. reflexivity.
Qed.

Lemma write_pages_programmed polls buf l : forall w,
  sharedBus w = false ->
  responsive polls (chip w) ->
  exists evs n,
    write_pages polls buf l w = Ret tt (after evs n w)
    /\ programmed evs = map (page_program buf) l.
Proof.
  induction l as [|[[a o] c] l IH]; intros w Hs Hr.
  - exists [], 0%nat. rewrite after_nil. split; reflexivity.
  - destruct (Hr (xfers w)) as (k1 & Hlt1 & Hk1).
    destruct (Hr (xfers w + k1 + 4)%nat) as (k2 & Hlt2 & Hk2).
    simpl. unfold bind.
    rewrite (writePageSync_after polls a _ c w k1 k2) by assumption.
    match goal with
    | |- context [write_pages polls buf l ?w1] =>
        destruct (IH w1 Hs Hr) as (evs & n & -> & Hp)
    end.
    rewrite after_after. eexists. eexists. split; [reflexivity|].
    rewrite <- !app_assoc. simpl cs. rewrite programmed_page, Hp. reflexivity.
Qed.

Lemma firstn_more {A} (l : list A) i j :
  firstn i l ++ firstn j (skipn i l) = firstn (i + j) l.
Proof.
  revert l. induction i as [|i IH]; intros l; [reflexivity|].
  destruct l as [|x l]; simpl.
  - rewrite firstn_nil. reflexivity.
  - rewrite IH. reflexivity.
Qed.

Lemma chunks_payloads buf a off n :
  0 <= n < size_max -> 0 <= off ->
  concat (map (fun x => snd (page_program buf x)) (chunks a off n))
  = map Some (firstn (Z.to_nat n) (skipn (Z.to_nat off) buf)).
Proof.
  revert a off n. apply (page_loop_ind
    (fun a off n => 0 <= n < size_max -> 0 <= off ->
       concat (map (fun x => snd (page_program buf x)) (chunks a off n))
       = map Some (firstn (Z.to_nat n) (skipn (Z.to_nat off) buf)))).
  - intros a off n Hn _ _. rewrite chunks_done by assumption.
    replace (Z.to_nat n) with 0%nat by lia. reflexivity.
  - intros a off n Hn IH Hr Hoff.
    destruct (remaining_small a n Hn ltac:(lia)) as [Hw Hr'].
    destruct (pageCount_bounds a n Hn) as [Hc _].
    rewrite chunks_step by assumption. simpl.
    rewrite IH by (rewrite ?Hw; lia). rewrite Hw, <- map_app. f_equal.
    rewrite Z2Nat.inj_add, (Nat.add_comm (Z.to_nat off)), <- skipn_skipn by lia.
    rewrite firstn_more. f_equal. lia.
Qed.

(** X6. On a dedicated bus and a chip that ends every wait, [writeDataSync]
    returns, and the page programs it put on the bus are, in order, one per
    round of its loop: each carries the low 24 bits of the round's address
    and the round's bytes.  Put end to end, the bytes sent are the first
    [n] bytes of the caller's buffer: nothing is left out, repeated or
    reordered. *)
Theorem writeDataSync_sends_buffer (polls : nat) (a n : Z) (buf : list Z)
    (w : world) :
  0 <= n < size_max ->
  sharedBus w = false ->
  responsive polls (chip w) ->
  exists w' evs,
    writeDataSync polls a buf n w = Ret tt w'
    /\ trace w' = trace w ++ evs
    /\ programmed evs = map (page_program buf) (chunks a 0 n)
    /\ concat (map snd (programmed evs)) = map Some (firstn (Z.to_nat n) buf).
Proof.
  intros Hn Hs Hr.
  pose proof (writeDataSync_chunks a 0 n polls buf w) as Hw. simpl in Hw.
  rewrite Hw by lia.
  destruct (write_pages_programmed polls buf (chunks a 0 n) w Hs Hr)
    as (evs & k & -> & Hp).
  eexists. exists evs. split; [reflexivity|]. split; [reflexivity|].
  split; [exact Hp|].
  rewrite Hp, map_map. rewrite (chunks_payloads buf a 0 n) by lia. reflexivity.
Qed.

Lemma writeDataSync_sends_buffer_witness :
  let w := begin (SpiFlash_new SPI 5 idle_chip) in
  exists w' evs,
    writeDataSync 1 254 [1; 2; 3; 4; 5] 5 w = Ret tt w'
    /\ trace w' = trace w ++ evs
    /\ programmed evs
       = [(254, [Some 1; Some 2]); (256, [Some 3; Some 4; Some 5])].
Proof.
  intros w.
  destruct (writeDataSync_sends_buffer 1 254 5 [1; 2; 3; 4; 5] w)
    as (w' & evs & H & Ht & Hp & _).
  - unfold size_max, size_bits. lia.
  - reflexivity.
  - intros i. exists 0%nat. split; [lia|].
    split; [intros j Hj; lia | reflexivity].
  - exists w', evs. split; [exact H|]. split; [exact Ht|].
    rewrite Hp. reflexivity.
Defined.

(** ** What a multi-page read costs *)

Lemma page_reads_no_delay pin buf l :
  occurrences is_delay (flat_map (page_read_events pin buf) l) = 0%nat.
Proof.
  induction l as [|[[a o] c] l IH]; [reflexivity|].
  unfold occurrences in *. simpl. exact IH.
Qed.

(** X7. On a dedicated bus [readDataSync] makes exactly two transfers (the
    header and the data) for each page the range meets, and none when the
    length is zero, in which case it does nothing at all.  It never sleeps
    and leaves the pending-operation record alone. *)
Theorem readDataSync_transfers (a n buf : Z) (w : world) :
  0 <= n < size_max ->
  sharedBus w = false ->
  let w' := readDataSync a buf n w in
  Z.of_nat (xfers w') = Z.of_nat (xfers w) + 2 * pages_met a n
  /\ occurrences is_delay (trace w') = occurrences is_delay (trace w)
  /\ record w' = record w
  /\ (n = 0 -> w' = w).
Proof.
  intros Hn Hs w'. subst w'.
  pose proof (readDataSync_chunks a 0 n buf w) as H. rewrite Z.add_0_r in H.
  split; [|split; [|split]].
  - rewrite H, read_pages_after by assumption. simpl xfers.
    rewrite <- (chunks_length a 0 n Hn). lia.
  - rewrite H, read_pages_after by assumption. simpl trace.
    rewrite occurrences_app, page_reads_no_delay. lia.
  - rewrite H, read_pages_after by assumption. reflexivity.
  - intros ->. apply readDataSync_done. lia.
Qed.

Lemma readDataSync_transfers_witness :
  let w := begin (SpiFlash_new SPI 5 idle_chip) in
  xfers (readDataSync 250 0 300 w) = 6%nat.
Proof.
  intros w.
  destruct (readDataSync_transfers 250 300 0 w) as (H & _).
  - unfold size_max, size_bits. lia.
  - reflexivity.
  - apply Nat2Z.inj. rewrite H. reflexivity.
Defined.

(** ** What a call does to the record and to the counts *)

Lemma cs_active_app t evs :
  cs_active (t ++ evs) = fold_left cs_step evs (cs_active t).
Proof. unfold cs_active. apply fold_left_app. Qed.

Lemma sync_exec_counts polls c w :
  is_async c = false ->
  sharedBus w = false ->
  record (world_of (exec polls c w)) = record w
  /\ occurrences is_callback (trace (world_of (exec polls c w)))
     = occurrences is_callback (trace w)
  /\ occurrences is_async_transfer (trace (world_of (exec polls c w)))
     = occurrences is_async_transfer (trace w).
Proof.
  intros Hc Hs.
  pose proof (sync_exec _ _ _ _ polls c Hc w (st_self w Hs)) as H.
  destruct (exec polls c w); simpl;
    destruct H as [(_ & Hr & _ & Hnc & Hna) | (_ & Hr & _ & Hnc & Hna)]; auto.
Qed.

Lemma writePageAsync_counts polls addr buf bufLen callback param w :
  sharedBus w = false ->
  let w' := world_of (writePageAsync polls addr buf bufLen callback param w) in
  (record w' = record w
   /\ occurrences is_callback (trace w') = occurrences is_callback (trace w)
   /\ occurrences is_async_transfer (trace w')
      = occurrences is_async_transfer (trace w))
  \/ (_spiFlash w' = THIS
      /\ occurrences is_callback (trace w') = occurrences is_callback (trace w)
      /\ occurrences is_async_transfer (trace w')
         = S (occurrences is_async_transfer (trace w))).
Proof.
  intros Hs w'. subst w'. unfold writePageAsync, bind, run, world_of.
  pose proof (step_wait (record w) (occurrences is_callback (trace w))
                (occurrences is_async_transfer (trace w)) (fun w1 =>
                   record w1 = record w
                   /\ occurrences is_callback (trace w1)
                      = occurrences is_callback (trace w)
                   /\ occurrences is_async_transfer (trace w1)
                      = occurrences is_async_transfer (trace w))
                polls (cs_active (trace w))) as Hw.
  specialize (Hw ltac:(intros ? (_ & ? & _ & ? & ?); auto)
                 ltac:(intros ? (_ & ? & _ & ? & ?); auto) w (st_self w Hs)).
  destruct (waitForWriteComplete polls w) as [[] w1 | w1].
  - right. destruct Hw as (Hs1 & _ & _ & Hnc & Hna).
    rewrite writePageCommon_after by (simpl; exact Hs1). simpl.
    rewrite !occurrences_app, Hnc, Hna. unfold occurrences. simpl.
    repeat split; lia.
  - left. exact Hw.
Qed.

Lemma api_eq_Begin c : c = Begin \/ c <> Begin.
Proof. destruct c; (left; reflexivity) || (right; discriminate). Qed.

(** Each call adds to the trace, calls no callback, and either leaves the
    record alone or starts an asynchronous transfer. *)
Lemma exec_advances polls c w :
  sharedBus w = false -> advances w (world_of (exec polls c w)).
Proof.
  intros Hs.
  assert (Hext : sharedBus (world_of (exec polls c w)) = false
                 /\ cs (world_of (exec polls c w)) = cs w
                 /\ exists evs, trace (world_of (exec polls c w)) = trace w ++ evs).
  { destruct (api_eq_Begin c) as [-> | Hc].
    - simpl. rewrite begin_trace by assumption. simpl.
      split; [exact Hs|]. split; [reflexivity|]. eexists. reflexivity.
    - destruct (quiet_exec polls c Hc w Hs) as (_ & Hcs & Hb & _ & evs & Ht & _).
      split; [congruence|]. split; [exact Hcs|]. exists evs. exact Ht. }
  destruct Hext as (Hs' & Hcs & evs & Ht).
  assert (Hcount :
    occurrences is_callback (trace (world_of (exec polls c w)))
    = occurrences is_callback (trace w)
    /\ (occurrences is_async_transfer (trace w)
        <= occurrences is_async_transfer (trace (world_of (exec polls c w))))%nat
    /\ (record (world_of (exec polls c w)) = record w
        \/ (occurrences is_async_transfer (trace w)
            < occurrences is_async_transfer (trace (world_of (exec polls c w))))%nat)).
  { destruct (is_async c) eqn:Ha.
    - destruct c; try discriminate Ha; simpl exec.
      + unfold run, world_of. rewrite readPageAsync_after by assumption.
        simpl. rewrite !occurrences_app. unfold occurrences. simpl.
        split; [lia|]. split; [lia | right; lia].
      + destruct (writePageAsync_counts polls addr buf bufLen callback param
                    w Hs) as [(Hrec & Hnc & Hna) | (Hp & Hnc & Hna)].
        * split; [exact Hnc|]. split; [lia | left; exact Hrec].
        * split; [exact Hnc|]. split; [lia | right; lia].
    - destruct (sync_exec_counts polls c w Ha Hs) as (Hrec & Hnc & Hna).
      split; [exact Hnc|]. split; [lia | left; exact Hrec]. }
  destruct Hcount as (Hnc & Hle & Hrec).
  split; [exact Hs'|]. split; [exact Hcs|]. split; [|split; assumption].
  exists evs. split; [exact Ht|].
  rewrite Ht, occurrences_app in Hnc. lia.
Qed.

Lemma advances_refl w : sharedBus w = false -> advances w w.
Proof.
  intros Hs. split; [exact Hs|]. split; [reflexivity|]. split; [|split].
  - exists []. rewrite app_nil_r. split; reflexivity.
  - lia.
  - left. reflexivity.
Qed.

Lemma advances_trans w1 w2 w3 :
  advances w1 w2 -> advances w2 w3 -> advances w1 w3.
Proof.
  intros (_ & Hc1 & (e1 & Ht1 & Hn1) & Hle1 & Hr1)
         (Hs2 & Hc2 & (e2 & Ht2 & Hn2) & Hle2 & Hr2).
  split; [exact Hs2|]. split; [congruence|]. split; [|split].
  - exists (e1 ++ e2). split.
    + rewrite Ht2, Ht1, app_assoc. reflexivity.
    + rewrite occurrences_app. lia.
  - lia.
  - destruct Hr1 as [Hr1 | Hr1]; [|right; lia].
    destruct Hr2 as [Hr2 | Hr2]; [left; congruence | right; lia].
Qed.

Lemma run_script_advances polls s : forall w,
  sharedBus w = false -> advances w (world_of (run_script polls s w)).
Proof.
  induction s as [|c next IH]; intros w Hs; [apply advances_refl; exact Hs|].
  simpl. pose proof (exec_advances polls c w Hs) as H1.
  destruct (exec polls c w) as [[] w' | w']; simpl in *; [|exact H1].
  apply (advances_trans _ _ _ H1). apply IH. apply H1.
Qed.

(** ** Program and erase commands come right after a write-enable *)

Lemma wel_scan_app t1 : forall s t2,
  wel_scan s (t1 ++ t2)
  = match wel_scan s t1 with
    | Some s' => wel_scan s' t2
    | None => None
    end.
Proof.
  induction t1 as [|e t1 IH]; intros s t2; simpl; [reflexivity|].
  destruct (wel_step s e); [apply IH | reflexivity].
Qed.

Lemma wl_after s s' evs n w :
  wl s w -> wel_scan s evs = Some s' -> wl s' (after evs n w).
Proof.
  intros [Hs Ht] He. split; [exact Hs|]. simpl.
  rewrite wel_scan_app, Ht. exact He.
Qed.

Lemma wl_step (f : world -> world) evs n s s' R :
  (forall w, sharedBus w = false -> f w = after (evs w) n w) ->
  (forall w, wel_scan s (evs w) = Some s') ->
  triple (wl s) (run f) (wl s') R.
Proof.
  intros Hf He w Hw. unfold run. rewrite Hf by apply Hw.
  apply (wl_after s); [exact Hw | apply He].
Qed.

Lemma wl_query {A} (f : world -> A * world) evs n s s' R :
  (forall w, sharedBus w = false -> snd (f w) = after (evs w) n w) ->
  (forall w, wel_scan s (evs w) = Some s') ->
  triple (wl s) (call f) (wl s') R.
Proof.
  intros Hf He w Hw. unfold call. specialize (Hf w ltac:(apply Hw)).
  destruct (f w) as [a w']. simpl in Hf. subst w'.
  apply (wl_after s); [exact Hw | apply He].
Qed.

(** Writing the statics leaves the trace alone. *)
Lemma wl_statics (f : world -> world) s R :
  (forall w, sharedBus (f w) = sharedBus w /\ trace (f w) = trace w) ->
  triple (wl s) (run f) (wl s) R.
Proof.
  intros Hf w [Hs Ht]. unfold run. destruct (Hf w) as [Hs' Ht'].
  split; congruence.
Qed.

Lemma wl_isWriteInProgress s R :
  triple (wl s) (call isWriteInProgress) (wl Unarmed) R.
Proof.
  apply (wl_query _ (fun w => status_read (cs w)) 1).
  - intros w Hs. rewrite isWriteInProgress_after by assumption. reflexivity.
  - intros w. destruct s; reflexivity.
Qed.

Lemma wl_wait polls : forall s,
  triple (wl s) (waitForWriteComplete polls) (wl Unarmed) wl_some.
Proof.
  induction polls as [|polls IH]; intros s.
  - intros w Hw. exists s. exact Hw.
  - simpl. eapply triple_bind; [apply wl_isWriteInProgress|].
    intros [|]; [|apply triple_ret].
    eapply triple_bind; [|intros _; apply IH].
    apply (wl_step _ (fun _ => [EvDelay 1]) 0).
    + intros w _. apply emit_after.
    + reflexivity.
Qed.

Lemma wl_writeEnable s R : triple (wl s) (run writeEnable) (wl Armed) R.
Proof.
  apply (wl_step _ (fun w => write_enable (cs w)) 1).
  - apply writeEnable_after.
  - intros w. destruct s; reflexivity.
Qed.

Lemma wl_beginTransaction R :
  triple (wl Armed) (run beginTransaction) (wl ArmedSelected) R.
Proof.
  apply (wl_step _ (fun w => [EvDigitalWrite (cs w) LOW]) 0).
  - apply beginTransaction_after.
  - reflexivity.
Qed.

Lemma wl_beginTransaction_plain R :
  triple (wl Unarmed) (run beginTransaction) (wl Selected) R.
Proof.
  apply (wl_step _ (fun w => [EvDigitalWrite (cs w) LOW]) 0).
  - apply beginTransaction_after.
  - reflexivity.
Qed.

Lemma wl_endTransaction R :
  triple (wl InCommand) (run endTransaction) (wl Unarmed) R.
Proof.
  apply (wl_step _ (fun w => [EvDigitalWrite (cs w) HIGH]) 0).
  - intros w _. apply endTransaction_after.
  - reflexivity.
Qed.

(** A program or erase command sent right after the write-enable. *)
Lemma wl_command op rest len R :
  state_changing op = true ->
  triple (wl ArmedSelected)
         (run (fun w => snd (SPI_transfer (Some (Some op :: rest)) None len
                                          false w)))
         (wl InCommand) R.
Proof.
  intros Hop.
  apply (wl_step _
    (fun _ => [EvTransfer SPI (Some (Some op :: rest)) None len false]) 1).
  - intros w _. apply SPI_transfer_after.
  - intros _. simpl. rewrite Hop. reflexivity.
Qed.

Lemma wl_writePageCommon s addr buf bufLen completion R :
  triple (wl s) (run (writePageCommon addr buf bufLen completion))
         (wl InCommand) R.
Proof.
  apply (wl_step _
    (fun w => write_enable (cs w)
              ++ program_command (cs w) addr buf bufLen completion) 3).
  - intros w Hs. apply writePageCommon_after. exact Hs.
  - intros w. destruct s; reflexivity.
Qed.

Lemma wl_readPageSync s addr buf bufLen R :
  triple (wl s) (run (readPageSync addr buf bufLen)) (wl Unarmed) R.
Proof.
  apply (wl_step _
    (fun w => read_command (cs w) addr buf bufLen false
              ++ [EvDigitalWrite (cs w) HIGH]) 2).
  - intros w Hs. apply readPageSync_after. exact Hs.
  - intros w. destruct s; reflexivity.
Qed.

Lemma wl_writePageSync s polls addr buf bufLen :
  triple (wl s) (writePageSync polls addr buf bufLen) (wl Unarmed) wl_some.
Proof.
  unfold writePageSync.
  eapply triple_bind; [apply wl_wait | intros _].
  eapply triple_bind; [apply wl_writePageCommon | intros _].
  eapply triple_bind; [apply wl_endTransaction | intros _].
  apply wl_wait.
Qed.

Lemma wl_erase s polls op (rest : list txbyte) len :
  state_changing op = true ->
  triple (wl s)
         (waitForWriteComplete polls ;;
          run writeEnable ;;
          run beginTransaction ;;
          run (fun w => snd (SPI_transfer (Some (Some op :: rest)) None len
                                          false w)) ;;
          run endTransaction ;;
          waitForWriteComplete polls)
         (wl Unarmed) wl_some.
Proof.
  intros Hop.
  eapply triple_bind; [apply wl_wait | intros _].
  eapply triple_bind; [apply wl_writeEnable | intros _].
  eapply triple_bind; [apply wl_beginTransaction | intros _].
  eapply triple_bind; [apply wl_command; exact Hop | intros _].
  eapply triple_bind; [apply wl_endTransaction | intros _].
  apply wl_wait.
Qed.

Lemma wl_some_intro {A} (m : M A) s s' :
  triple (wl s) m (wl s') wl_some -> triple (wl s) m wl_some wl_some.
Proof.
  intros H. eapply triple_weaken; [exact H|]. intros w Hw. exists s'. exact Hw.
Qed.

Lemma wl_read_pages buf l : forall s w,
  wl s w -> wl_some (read_pages buf l w).
Proof.
  induction l as [|[[a o] c] l IH]; intros s w Hw.
  - exists s. exact Hw.
  - unfold read_pages in *. simpl.
    apply (IH Unarmed). apply (wl_readPageSync s a (buf + o) c (fun _ => True) w Hw).
Qed.

Lemma wl_write_pages polls buf l : forall s,
  triple (wl s) (write_pages polls buf l) wl_some wl_some.
Proof.
  induction l as [|[[a o] c] l IH]; intros s; simpl.
  - intros w Hw. exists s. exact Hw.
  - eapply triple_bind; [apply wl_writePageSync | intros _; apply IH].
Qed.

Lemma wl_exec s polls c : triple (wl s) (exec polls c) wl_some wl_some.
Proof.
  destruct c; simpl.
  - intros w Hw. unfold run. rewrite begin_trace by apply Hw.
    destruct s; eexists; (eapply wl_after; [exact Hw | reflexivity]).
  - apply (wl_some_intro _ s Unarmed).
    eapply triple_bind; [|intros _; apply triple_ret].
    intros w Hw. unfold call, isValidChip.
    pose proof (jedecIdRead_after w ltac:(apply Hw)) as Hj.
    destruct (jedecIdRead w) as [[[m d1] d2] w']. simpl in Hj. subst w'.
    rewrite emit_after, after_after.
    apply (wl_after s); [exact Hw|]. destruct s; reflexivity.
  - apply (wl_some_intro _ s Unarmed).
    eapply triple_bind; [|intros _; apply triple_ret].
    apply (wl_query _
      (fun w => [EvDigitalWrite (cs w) LOW;
                 EvTransfer SPI (Some [Some 0x9f; None; None; None])
                            (Some RxLocal) 4 false;
                 EvDigitalWrite (cs w) HIGH]) 1).
    + apply jedecIdRead_after.
    + intros w. destruct s; reflexivity.
  - apply (wl_some_intro _ s Unarmed).
    eapply triple_bind; [|intros _; apply triple_ret].
    apply (wl_query _ (fun w => status_read (cs w)) 1).
    + intros w Hs. rewrite readStatus_after by assumption. reflexivity.
    + intros w. destruct s; reflexivity.
  - apply (wl_some_intro _ s Unarmed).
    eapply triple_bind; [apply wl_isWriteInProgress | intros _; apply triple_ret].
  - apply (wl_some_intro _ s Unarmed). apply wl_wait.
  - apply (wl_some_intro _ s Unarmed). unfold writeStatus.
    eapply triple_bind; [apply wl_wait | intros _].
    eapply triple_bind; [apply wl_beginTransaction_plain | intros _].
    eapply triple_bind; [|intros _; apply wl_endTransaction].
    apply (wl_step _
      (fun _ => [EvTransfer SPI (Some [Some 1; Some (u8 status)]) None 2 false]) 1).
    + intros w _. apply SPI_transfer_after.
    + reflexivity.
  - intros w Hw. unfold run.
    pose proof (readDataSync_chunks addr 0 bufLen buf w) as H.
    rewrite Z.add_0_r in H. rewrite H. apply (wl_read_pages _ _ s). exact Hw.
  - apply (wl_some_intro _ s Unarmed). apply wl_readPageSync.
  - intros w Hw. unfold run. rewrite readPageAsync_after by apply Hw.
    exists InCommand. apply (wl_after s).
    + destruct Hw as [Hs Ht]. split; [exact Hs | exact Ht].
    + destruct s; reflexivity.
  - intros w Hw.
    pose proof (writeDataSync_chunks addr 0 bufLen polls buf w) as H.
    simpl in H. rewrite H by lia. apply (wl_write_pages polls buf _ s w Hw).
  - apply (wl_some_intro _ s Unarmed). apply wl_writePageSync.
  - apply (wl_some_intro _ s InCommand). unfold writePageAsync.
    eapply triple_bind; [apply wl_wait | intros _].
    eapply triple_bind; [apply wl_statics; split; reflexivity | intros _].
    eapply triple_bind; [apply wl_statics; split; reflexivity | intros _].
    eapply triple_bind; [apply wl_statics; split; reflexivity | intros _].
    apply wl_writePageCommon.
  - apply (wl_some_intro _ s Unarmed). unfold sectorErase.
    rewrite setInstWithAddr_header by lia. apply wl_erase. reflexivity.
  - apply (wl_some_intro _ s Unarmed). unfold blockErase.
    rewrite setInstWithAddr_header by lia. apply wl_erase. reflexivity.
  - apply (wl_some_intro _ s Unarmed). apply (wl_erase s polls 0xC7 []).
    reflexivity.
Qed.

Lemma wl_some_exec polls c w : wl_some w -> wl_some (world_of (exec polls c w)).
Proof.
  intros [s Hw]. pose proof (wl_exec s polls c w Hw) as H.
  destruct (exec polls c w); exact H.
Qed.

Lemma wl_some_callback_entry w : wl_some w -> wl_some (callback_entry w).
Proof.
  intros [s [Hs Ht]]. unfold callback_entry.
  destruct s; eexists; (split; [exact Hs|]); simpl;
    rewrite <- app_assoc, wel_scan_app, Ht; reflexivity.
Qed.

Lemma wl_completion user polls w o :
  wl_some w -> _completion user polls w = Some o -> wl_some (world_of o).
Proof.
  apply completion_preserves.
  - intros c w0. apply wl_some_exec.
  - intros w0 [s [Hs Ht]] _.
    destruct s; eexists; (split; [exact Hs|]); simpl;
      rewrite wel_scan_app, Ht; reflexivity.
  - intros w0 H0 _. apply wl_some_callback_entry. exact H0.
  - intros w0 fn param [s [Hs Ht]]. exists s. split; assumption.
Qed.

(** The reading is not blind: a program command with no write-enable
    before it is a fault. *)
Lemma wel_scan_rejects_bare_program :
  wel_scan Unarmed (status_read 5 ++ program_command 5 0x100 [1; 2] 2 false)
  = None.
Proof. reflexivity. Qed.

(** X10. In every world a program can reach, inside a callback too, each
    page-program command (0x02) and each erase command (0xD7, 0xD8, 0xC7) on
    the bus comes right after a write-enable: a chip-select bracket holding
    the single byte 0x06, a delay of at least 3 microseconds, chip-select
    low, and then the command as the first transfer. *)
Theorem program_and_erase_follow_write_enable (w : world) :
  reachable w -> exists s, wel_scan Unarmed (trace w) = Some s.
Proof.
  intros Hr.
  assert (H : wl_some w).
  { induction Hr as [bus pin c | w polls c Hr IH | w Hr IH Hp Hcb
                     | user polls w o Hr IH Hc].
    - exists Unarmed. split; reflexivity.
    - apply wl_some_exec. exact IH.
    - apply wl_some_callback_entry. exact IH.
    - apply (wl_completion user polls w o IH Hc). }
  destruct H as [s [_ Hs]]. exists s. exact Hs.
Qed.

Lemma program_and_erase_follow_write_enable_witness :
  let w := world_of (exec 3 (SectorErase 0x1000)
             (world_of (exec 3 (WriteDataSync 250 (repeat 7 10) 10)
                (begin (SpiFlash_new SPI 5 busy_twice))))) in
  exists s, wel_scan Unarmed (trace w) = Some s.
Proof.
  intros w. apply program_and_erase_follow_write_enable.
  apply reach_call. apply reach_call. apply (reach_call _ 0 Begin).
  apply reach_new.
Defined.

(** ** Multi-page transfers and their parts *)

Lemma chunks_single a off n :
  0 < n < size_max -> a mod PAGE_SIZE + n <= PAGE_SIZE ->
  chunks a off n = [(a, off, n)].
Proof.
  intros Hn Hp. rewrite chunks_step by lia.
  assert (Hc : pageCount a n = n) by (rewrite pageCount_min; lia).
  rewrite Hc, Z.sub_diag. rewrite chunks_done; [reflexivity|].
  unfold wrap. rewrite Z.mod_0_l; [lia | discriminate].
Qed.

(** X11. For a range that lies within one page, the multi-page operations
    are the page operations: [readDataSync] is [readPageSync] and
    [writeDataSync] is [writePageSync], with the same arguments. *)
Theorem within_one_page (a n : Z) :
  0 < n < size_max ->
  a mod PAGE_SIZE + n <= PAGE_SIZE ->
  (forall buf w, readDataSync a buf n w = readPageSync a buf n w)
  /\ (forall polls buf w,
        writeDataSync polls a buf n w = writePageSync polls a buf n w).
Proof.
  intros Hn Hp. split.
  - intros buf w. pose proof (readDataSync_chunks a 0 n buf w) as H.
    rewrite Z.add_0_r in H. rewrite H, chunks_single by assumption.
    unfold read_pages. simpl. rewrite Z.add_0_r. reflexivity.
  - intros polls buf w. pose proof (writeDataSync_chunks a 0 n polls buf w) as H.
    simpl in H. rewrite H, chunks_single by (assumption || lia).
    simpl. unfold bind, ret.
    destruct (writePageSync polls a buf n w) as [[] w' | w']; reflexivity.
Qed.

Lemma within_one_page_witness :
  let w := begin (SpiFlash_new SPI 5 idle_chip) in
  readDataSync 0x1F0 0 16 w = readPageSync 0x1F0 0 16 w
  /\ writeDataSync 1 0x1F0 (repeat 7 16) 16 w
     = writePageSync 1 0x1F0 (repeat 7 16) 16 w.
Proof.
  intros w.
  destruct (within_one_page 0x1F0 16) as [Hr Hw].
  - unfold size_max, size_bits. lia.
  - unfold PAGE_SIZE. simpl. lia.
  - split; [apply Hr | apply Hw].
Defined.

Lemma pageCount_to_boundary a n1 n2 :
  n1 > 0 -> 0 <= n2 -> (a + n1) mod PAGE_SIZE = 0 ->
  pageCount a (n1 + n2) = pageCount a n1.
Proof.
  intros H1 H2 Ha. rewrite !pageCount_min. unfold PAGE_SIZE in *.
  assert (256 - a mod 256 <= n1) by (Z.div_mod_to_equations; lia).
  lia.
Qed.

Lemma chunks_split a off n1 : forall n2,
  0 <= n1 -> 0 <= n2 -> n1 + n2 < size_max -> 0 <= a < size_max ->
  (a + n1) mod PAGE_SIZE = 0 ->
  chunks a off (n1 + n2)
  = chunks a off n1 ++ chunks (wrap (a + n1)) (off + n1) n2.
Proof.
  revert a off n1. apply (page_loop_ind
    (fun a off n1 => forall n2,
       0 <= n1 -> 0 <= n2 -> n1 + n2 < size_max -> 0 <= a < size_max ->
       (a + n1) mod PAGE_SIZE = 0 ->
       chunks a off (n1 + n2)
       = chunks a off n1 ++ chunks (wrap (a + n1)) (off + n1) n2)).
  - intros a off n1 Hle n2 H1 H2 Hlt Ha _.
    assert (n1 = 0) by lia. subst n1.
    rewrite (chunks_done a off 0) by lia.
    rewrite !Z.add_0_r, wrap_small by assumption. reflexivity.
  - intros a off n1 Hgt IH n2 H1 H2 Hlt Ha Hal.
    destruct (pageCount_bounds a n1 Hgt) as [Hc _].
    destruct (remaining_small a n1 Hgt ltac:(lia)) as [Hw Hr].
    rewrite (chunks_step a off (n1 + n2)), (chunks_step a off n1) by lia.
    rewrite (pageCount_to_boundary a n1 n2) by assumption.
    simpl. f_equal.
    rewrite Hw in *.
    replace (wrap (n1 + n2 - pageCount a n1))
      with (n1 - pageCount a n1 + n2) by (rewrite wrap_small; lia).
    rewrite (IH n2); try lia.
    + f_equal. f_equal.
      * unfold wrap. rewrite Zplus_mod_idemp_l. f_equal. ring.
      * ring.
    + apply Z.mod_pos_bound. reflexivity.
    + unfold wrap, PAGE_SIZE in *. change size_max with (256 * 16777216).
      revert Hal. generalize (pageCount a n1). intros c Hal.
      Z.div_mod_to_equations. lia.
Qed.

Lemma read_pages_app buf l1 l2 w :
  read_pages buf (l1 ++ l2) w = read_pages buf l2 (read_pages buf l1 w).
Proof. unfold read_pages. apply fold_left_app. Qed.

Lemma write_pages_app polls buf l1 l2 : forall w,
  write_pages polls buf (l1 ++ l2) w
  = (write_pages polls buf l1 ;; write_pages polls buf l2) w.
Proof.
  induction l1 as [|[[a o] c] l1 IH]; intros w; simpl; [reflexivity|].
  unfold bind in *. destruct (writePageSync polls a (skipn (Z.to_nat o) buf) c w);
    [apply IH | reflexivity].
Qed.

(** X12. A multi-page transfer can be cut at a page boundary: when
    [a + n1] is a multiple of 256, reading (writing) [n1 + n2] bytes at [a]
    is reading (writing) [n1] bytes at [a] and then [n2] bytes at [a + n1],
    with the buffer cursor moved on by [n1]: the same commands on the bus
    in the same order. *)
Theorem multi_page_cut_at_boundary (a n1 n2 : Z) :
  0 <= a < size_max -> 0 <= n1 -> 0 <= n2 -> n1 + n2 < size_max ->
  (a + n1) mod PAGE_SIZE = 0 ->
  (forall buf w,
     readDataSync a buf (n1 + n2) w
     = readDataSync (wrap (a + n1)) (buf + n1) n2 (readDataSync a buf n1 w))
  /\ (forall polls buf w,
        writeDataSync polls a buf (n1 + n2) w
        = (writeDataSync polls a buf n1 ;;
           writeDataSync polls (wrap (a + n1)) (skipn (Z.to_nat n1) buf) n2) w).
Proof.
  intros Ha H1 H2 Hlt Hal.
  pose proof (chunks_split a 0 n1 n2 H1 H2 Hlt Ha Hal) as Hsplit.
  rewrite Z.add_0_l in Hsplit. split.
  - intros buf w.
    pose proof (readDataSync_chunks a 0 (n1 + n2) buf w) as Hall.
    pose proof (readDataSync_chunks a 0 n1 buf w) as Hfst.
    rewrite Z.add_0_r in Hall, Hfst.
    rewrite Hall, Hsplit, read_pages_app, <- Hfst.
    symmetry. apply readDataSync_chunks.
  - intros polls buf w.
    pose proof (writeDataSync_chunks a 0 (n1 + n2) polls buf w) as Hall.
    pose proof (writeDataSync_chunks a 0 n1 polls buf w) as Hfst.
    simpl in Hall, Hfst.
    rewrite Hall, Hsplit, write_pages_app by lia.
    unfold bind. rewrite <- Hfst by lia.
    destruct (writeDataSync polls a buf n1 w) as [[] w1 | w1]; [|reflexivity].
    symmetry. apply writeDataSync_chunks. exact H1.
Qed.

Lemma multi_page_cut_at_boundary_witness :
  let w := begin (SpiFlash_new SPI 5 idle_chip) in
  readDataSync 250 0 300 w
  = readDataSync 512 262 38 (readDataSync 250 0 262 w).
Proof.
  intros w.
  destruct (multi_page_cut_at_boundary 250 262 38) as [H _].
  - unfold size_max, size_bits. lia.
  - lia.
  - lia.
  - unfold size_max, size_bits. lia.
  - reflexivity.
  - apply (H 0 w).
Defined.

(** ** The completion routine *)

(** C6, as the code has it.  When an operation is pending, the completion
    routine first drives chip-select inactive and clears the device pointer.
    If the recorded callback is [NULL], nothing is called and the routine
    returns.  Otherwise the callback is called with the recorded context,
    once: whatever it calls of the driver, no further callback is called
    before the routine returns.  When the callback has returned, callback
    and context are cleared, and then the routine returns; the device
    pointer is still clear then if the callback started no asynchronous
    transfer. *)
Theorem completion_releases_then_calls (user : Z -> Z -> world -> script)
    (polls : nat) (w : world) :
  sharedBus w = false ->
  _spiFlash w = THIS ->
  exists o rest,
    _completion user polls w = Some o
    /\ trace (world_of o)
       = trace w
         ++ EvDigitalWrite (cs w) HIGH
            :: (if _callback w =? 0 then []
                else [EvCallback (_callback w) (_callbackParam w)])
         ++ rest
    /\ occurrences is_callback rest = 0%nat
    /\ (_callback w = 0 ->
        o = Ret tt (set_spiFlash NULL (endTransaction w)))
    /\ (_callback w <> 0 ->
        o = (run_script polls
               (user (_callback w) (_callbackParam w) (callback_entry w)) ;;
             run (set_callback 0) ;;
             run (set_callbackParam 0)) (callback_entry w))
    /\ (forall w', o = Ret tt w' ->
          _callback w' = 0
          /\ (_callback w <> 0 -> _callbackParam w' = 0)
          /\ (occurrences is_async_transfer rest = 0%nat ->
              _spiFlash w' = NULL)).
Proof.
  intros Hs Hp. unfold _completion. rewrite Hp. simpl.
  destruct (Z.eqb_spec (_callback w) 0) as [E | E]; simpl.
  - eexists. exists []. split; [reflexivity|]. split; [reflexivity|].
    split; [reflexivity|]. split; [reflexivity|]. split; [contradiction|].
    intros w' H. inversion H; subst. simpl.
    split; [exact E|]. split; [contradiction | reflexivity].
  - change (emit (EvCallback (_callback w) (_callbackParam w))
              (set_spiFlash NULL (endTransaction w))) with (callback_entry w).
    set (s := user (_callback w) (_callbackParam w) (callback_entry w)).
    pose proof (run_script_advances polls s (callback_entry w) Hs)
      as (_ & _ & (rest & Ht & Hn) & Hle & Hrec).
    eexists. exists rest. split; [reflexivity|].
    unfold bind, run.
    destruct (run_script polls s (callback_entry w)) as [[] w1 | w1];
      simpl in *.
    + split; [rewrite Ht; unfold callback_entry; simpl;
              rewrite <- !app_assoc; reflexivity|].
      split; [exact Hn|]. split; [contradiction|]. split; [reflexivity|].
      intros w' H. inversion H; subst. simpl.
      split; [reflexivity|]. split; [reflexivity|].
      intros Ha. destruct Hrec as [Hrec | Hlt].
      * unfold record in Hrec. simpl in Hrec. congruence.
      * rewrite Ht in Hlt. rewrite (occurrences_app _ _ rest) in Hlt. lia.
    + split; [rewrite Ht; unfold callback_entry; simpl;
              rewrite <- !app_assoc; reflexivity|].
      split; [exact Hn|]. split; [contradiction|]. split; [reflexivity|].
      intros w' H. discriminate H.
Qed.

Lemma completion_releases_then_calls_witness :
  let w := readPageAsync 0 0 16 0x1000 0x2000
             (begin (SpiFlash_new SPI 5 idle_chip)) in
  exists w',
    _completion no_calls 0 w = Some (Ret tt w')
    /\ trace w' = trace w ++ [EvDigitalWrite 5 HIGH; EvCallback 0x1000 0x2000]
    /\ (_spiFlash w', _callback w', _callbackParam w') = (NULL, 0, 0).
Proof.
  intros w.
  destruct (completion_releases_then_calls no_calls 0 w eq_refl eq_refl)
    as (o & rest & H & Ht & _ & _ & Ho & Hret).
  assert (E : o = Ret tt (set_pending NULL 0 0 (callback_entry w)))
    by (rewrite Ho; [reflexivity | discriminate]).
  exists (set_pending NULL 0 0 (callback_entry w)).
  split; [rewrite H, E; reflexivity|]. split; reflexivity.
Defined.

(** C6, as the claim states it, fails: with a [NULL] callback and a context
    recorded, the completion routine calls nothing and leaves the context in
    the record. *)
Lemma completion_null_callback_keeps_context :
  let w := readPageAsync 0 0 16 0 0x2000 (begin (SpiFlash_new SPI 5 idle_chip)) in
  exists w',
    _completion no_calls 0 w = Some (Ret tt w')
    /\ occurrences is_callback (trace w') = 0%nat
    /\ _callbackParam w' = 0x2000
    /\ _callbackParam w' <> 0.
Proof.
  intros w. eexists. split; [reflexivity|].
  split; [reflexivity|]. split; [reflexivity|]. intros E. discriminate E.
Qed.

(** ** An asynchronous operation from issue to completion *)

(** X8. On a dedicated bus, [readPageAsync] with a callback leaves
    chip-select active and the operation recorded, and the callback starts
    with chip-select inactive and the device pointer cleared.  If the
    callback calls nothing of the driver, the routine returns with the
    record empty, and a further completion with no new operation issued has
    no result: the routine goes through the [NULL] device pointer.  If the
    callback starts the next read, the routine clears the callback and the
    context of that read when the callback returns: it returns with the
    read pending and chip-select active but no callback recorded, and the
    completion of that read drives chip-select inactive and calls
    nothing. *)
Theorem async_issue_then_completion (addr buf bufLen callback param : Z)
    (user : Z -> Z -> world -> script) (polls : nat) (w : world) :
  sharedBus w = false ->
  callback <> 0 ->
  let w1 := readPageAsync addr buf bufLen callback param w in
  cs_active (trace w1) = true
  /\ record w1 = (THIS, callback, param)
  /\ cs_active (trace (callback_entry w1)) = false
  /\ record (callback_entry w1) = (NULL, callback, param)
  /\ (user callback param (callback_entry w1) = Stop ->
      let w2 := set_pending NULL 0 0 (callback_entry w1) in
      _completion user polls w1 = Some (Ret tt w2)
      /\ trace w2
         = trace w1 ++ [EvDigitalWrite (cs w) HIGH; EvCallback callback param]
      /\ cs_active (trace w2) = false
      /\ record w2 = (NULL, 0, 0)
      /\ occurrences is_callback (trace w2)
         = S (occurrences is_callback (trace w))
      /\ _completion user polls w2 = None)
  /\ (forall a2 b2 n2 cb2 p2 next,
        user callback param (callback_entry w1)
        = Do (ReadPageAsync a2 b2 n2 cb2 p2) next ->
        (forall w', next w' = Stop) ->
        let w2 := set_pending THIS 0 0
                    (after (read_command (cs w) a2 b2 n2 true) 2
                           (callback_entry w1)) in
        _completion user polls w1 = Some (Ret tt w2)
        /\ cs_active (trace w2) = true
        /\ forall user' polls',
             _completion user' polls' w2
             = Some (Ret tt (set_spiFlash NULL (endTransaction w2)))).
Proof.
  intros Hs Hcb w1.
  assert (Hw1 : w1 = after (read_command (cs w) addr buf bufLen true) 2
                       (set_pending THIS callback param w))
    by (apply readPageAsync_after; exact Hs).
  assert (Hc : _completion user polls w1
               = Some ((run_script polls
                          (user callback param (callback_entry w1)) ;;
                        run (set_callback 0) ;; run (set_callbackParam 0))
                       (callback_entry w1))).
  { unfold _completion. rewrite Hw1. simpl.
    destruct (Z.eqb_spec callback 0) as [E | _]; [contradiction|]. reflexivity. }
  split; [|split; [|split; [|split; [|split]]]].
  - rewrite Hw1. simpl trace. rewrite cs_active_app. reflexivity.
  - rewrite Hw1. reflexivity.
  - rewrite Hw1. unfold callback_entry. simpl trace.
    rewrite !cs_active_app. reflexivity.
  - rewrite Hw1. reflexivity.
  - intros Hu w2. rewrite Hc, Hu. split; [reflexivity|].
    assert (Ht : trace w2 = trace w1 ++ [EvDigitalWrite (cs w) HIGH;
                                         EvCallback callback param]).
    { subst w2. rewrite Hw1. unfold callback_entry. simpl.
      rewrite <- !app_assoc. reflexivity. }
    split; [exact Ht|]. split; [|split; [|split]]; try reflexivity.
    + rewrite Ht, cs_active_app. reflexivity.
    + rewrite Ht, Hw1. simpl trace. rewrite !occurrences_app.
      unfold occurrences. simpl. lia.
  - intros a2 b2 n2 cb2 p2 next Hu Hnext w2. rewrite Hc, Hu.
    assert (Hw2 : w2 = set_callbackParam 0 (set_callback 0
                     (readPageAsync a2 b2 n2 cb2 p2 (callback_entry w1)))).
    { subst w2. rewrite readPageAsync_after by (rewrite Hw1; exact Hs).
      rewrite Hw1. reflexivity. }
    split; [|split].
    + simpl. unfold bind, run. rewrite Hnext, Hw2. reflexivity.
    + subst w2. simpl trace. rewrite cs_active_app. reflexivity.
    + intros user' polls'. reflexivity.
Qed.

Lemma async_issue_then_completion_witness :
  let w := begin (SpiFlash_new SPI 5 idle_chip) in
  let w1 := readPageAsync 0 0 16 0x1000 0x2000 w in
  exists w2,
    _completion chain_read 0 w1 = Some (Ret tt w2)
    /\ record w2 = (THIS, 0, 0)
    /\ cs_active (trace w2) = true
    /\ _completion chain_read 0 w2
       = Some (Ret tt (set_spiFlash NULL (endTransaction w2))).
Proof.
  intros w w1.
  destruct (async_issue_then_completion 0 0 16 0x1000 0x2000 chain_read 0 w
              eq_refl) as (_ & _ & _ & _ & _ & H).
  - discriminate.
  - destruct (H 0x100 0 16 0x1000 0x2000 (fun _ => Stop) eq_refl
                (fun _ => eq_refl)) as (H2 & Hcs & H3).
    eexists. split; [exact H2|]. split; [reflexivity|].
    split; [exact Hcs | apply H3].
Defined.

(** ** Callbacks and asynchronous transfers *)

Lemma exec_bounded polls c w :
  callbacks_bounded w -> callbacks_bounded (world_of (exec polls c w)).
Proof.
  intros [Hs Hb].
  destruct (exec_advances polls c w Hs)
    as (Hs' & _ & (evs & Ht & Hn) & Hle & Hrec).
  split; [exact Hs'|].
  assert (Hcb : occurrences is_callback (trace (world_of (exec polls c w)))
                = occurrences is_callback (trace w))
    by (rewrite Ht, occurrences_app, Hn; lia).
  rewrite Hcb.
  destruct Hrec as [Hrec | Hlt].
  - assert (E : pending_count (world_of (exec polls c w)) = pending_count w).
    { unfold pending_count, record in *.
      replace (_spiFlash (world_of (exec polls c w))) with (_spiFlash w)
        by congruence.
      reflexivity. }
    lia.
  - assert (pending_count (world_of (exec polls c w)) <= 1)%nat
      by (unfold pending_count; destruct (_spiFlash _); lia).
    lia.
Qed.

Lemma completion_bounded user polls w o :
  callbacks_bounded w ->
  _completion user polls w = Some o ->
  callbacks_bounded (world_of o).
Proof.
  apply completion_preserves.
  - intros c w0. apply exec_bounded.
  - intros w0 [Hs Hb] Hp. split; [exact Hs|].
    unfold pending_count in *. rewrite Hp in Hb. simpl.
    rewrite !occurrences_app. unfold occurrences in *. simpl. lia.
  - intros w0 [Hs Hb] Hp. split; [exact Hs|].
    unfold pending_count, callback_entry in *. rewrite Hp in Hb. simpl.
    rewrite !occurrences_app. unfold occurrences in *. simpl. lia.
  - intros w0 fn param H0. exact H0.
Qed.

(** X9. In every world a program can reach, inside a callback too, counting
    one for an operation that is still recorded as pending, the driver has
    called a callback no more often than it has started asynchronous
    transfers: no transfer is answered with two callbacks, whatever the
    callbacks call. *)
Theorem callbacks_bounded_by_transfers (w : world) :
  reachable w ->
  (pending_count w + occurrences is_callback (trace w)
   <= occurrences is_async_transfer (trace w))%nat.
Proof.
  intros Hr.
  assert (H : callbacks_bounded w).
  { induction Hr as [bus pin c | w polls c Hr IH | w Hr IH Hp Hcb
                     | user polls w o Hr IH Hc].
    - split; [reflexivity|]. unfold pending_count, occurrences. simpl. lia.
    - apply exec_bounded. exact IH.
    - destruct IH as [Hs Hb]. split; [exact Hs|].
      unfold pending_count, callback_entry in *. rewrite Hp in Hb. simpl.
      rewrite !occurrences_app. unfold occurrences in *. simpl. lia.
    - apply (completion_bounded user polls w o IH Hc). }
  apply H.
Qed.

Lemma callbacks_bounded_by_transfers_witness :
  let w0 := begin (SpiFlash_new SPI 5 idle_chip) in
  let w1 := readPageAsync 0 0 16 0x1000 0x2000 w0 in
  exists o,
    _completion chain_read 0 w1 = Some o
    /\ (pending_count (world_of o) + occurrences is_callback (trace (world_of o))
        <= occurrences is_async_transfer (trace (world_of o)))%nat.
Proof.
  intros w0 w1.
  assert (H : exists o, _completion chain_read 0 w1 = Some o)
    by (eexists; reflexivity).
  destruct H as [o E]. exists o. split; [exact E|].
  apply callbacks_bounded_by_transfers.
  apply (reach_completion chain_read 0 w1 o); [|exact E].
  apply (reach_call w0 0 (ReadPageAsync 0 0 16 0x1000 0x2000)).
  apply (reach_call _ 0 Begin). apply reach_new.
Defined.
